(** * A shallow embedding of the generic resource pool of [new_pool.go]

    The pool keeps two Go maps, [lock] (resources handed out, with their
    checkout time) and [unlock] (idle resources, with the time they became
    idle), a [creator] function and a mutex behind the [PoolMutex] interface.
    The three exported methods are [Acquire], [Release] and [NumIdle].

    Modelling choices, all read off the source:
    - [time.Time] is an instant in nanoseconds, a [Z]; [time.Duration] is an
      [int64], a [Z] whose multiplication wraps around;
    - a Go map is a [gmap]; the unspecified iteration order of [range] is a
      permutation of its entries decoded from a number supplied by the
      runtime, so that every order is possible;
    - [time.Now()] is read from a clock that never runs backwards: each
      reading adds a non-negative number of nanoseconds to the previous one;
    - the methods run in a small state monad whose outcomes are: the call
      returned, the calling goroutine is blocked for ever inside
      [Lock], or the process died in [Unlock];
    - the mutex is an interface in the source, hence a type class here, with
      the two implementations found in the repository as instances:
      [sync.Mutex] (used by [New]) and the recording mock of the tests. *)

From stdpp Require Import gmap strings list fin_maps.

Local Open Scope Z_scope.

(** ** Go primitives *)

Abbreviation Time := Z (only parsing).
Abbreviation Duration := Z (only parsing).

Definition min_int64 : Z := - 2 ^ 63.
Definition max_int64 : Z := 2 ^ 63 - 1.

(** Two's complement wrap-around of a 64-bit signed integer. *)
Definition wrap64 (z : Z) : Z := (z + 2 ^ 63) `mod` 2 ^ 64 - 2 ^ 63.

(** [a * b] on [time.Duration] (an [int64]). *)
Definition Duration_mul (a b : Duration) : Duration := wrap64 (a * b).

(** [t.Add(d)] *)
Definition Time_Add (t : Time) (d : Duration) : Time := t + d.

(** [t.Before(u)]: strictly earlier. *)
Definition Time_Before (t u : Time) : bool := t <? u.

(** The order in which a [range] statement visits a collection is not
    specified.  The runtime supplies a number; the visiting order is the
    permutation that number encodes: pick the element at index
    [code mod length], remove it, and go on with [code / length]. *)
Fixpoint shuffle {A : Type} (fuel : nat) (code : nat) (l : list A) : list A :=
  match fuel with
  | O => []
  | S fuel' =>
      let i := (code `mod` length l)%nat in
      match l !! i with
      | Some x => x :: shuffle fuel' (code `div` length l)%nat (delete i l)
      | None => []
      end
  end.

Definition range_order {A : Type} (code : nat) (l : list A) : list A :=
  shuffle (length l) code l.

(** ** The mutex interface

    [Lock] returns [None] when the caller can never proceed (the mutex is
    held and nobody will release it); [Unlock] returns [None] when the
    runtime aborts the process. *)
Class PoolMutex (M : Type) := {
  Lock : M → option M;
  Unlock : M → option M
}.

(** [sync.Mutex]: not reentrant.  The state is "held". *)
Definition sync_Mutex := bool.

#[export] Instance sync_Mutex_PoolMutex : PoolMutex sync_Mutex := {|
  Lock := λ held : bool, if held then None else Some true;
  Unlock := λ held : bool, if held then Some false else None
|}.

(** The mock of the test file: it records the calls and never blocks. *)
Inductive MockCall := CalledLock | CalledUnlock.

Definition MockMutex := list MockCall.

#[export] Instance MockMutex_PoolMutex : PoolMutex MockMutex := {|
  Lock := λ calls : list MockCall, Some (calls ++ [CalledLock]);
  Unlock := λ calls : list MockCall, Some (calls ++ [CalledUnlock])
|}.

(** ** The runtime outside the pool *)

(** What the runtime decides: how much time passes before the k-th reading
    of the clock, and the code of the order of the k-th [range]. *)
Record Env := {
  elapse : nat → N;
  order : nat → nat
}.

Inductive Event {Ctx : Type} :=
| EvLock
| EvUnlock
| EvCreator (ctx : Ctx)
| EvPrintln (msg : string).
Arguments Event : clear implicits.

Record World {Ctx : Type} := {
  now : Time;                 (* last reading of the clock *)
  reads : nat;                (* number of readings so far *)
  ranges : nat;               (* number of [range] statements so far *)
  calls : nat;                (* number of calls of the creator so far *)
  trace : list (Event Ctx)    (* calls on the mutex, the creator, stdout *)
}.
Arguments World : clear implicits.

(** ** The pool *)

Section Pool.
Context {T : Type} `{Countable T} {Err Ctx M : Type} `{PoolMutex M}.
(** [*new(T)], the zero value of the resource type *)
Variable zero : T.
Variable env : Env.

(** [type NewPool[T comparable] struct].  The creator may be a closure
    with hidden state: its result is a function of the number of earlier
    calls.  An [error] is [None] for [nil]. *)
Record NewPool := {
  creator : nat → Ctx → T * option Err;
  maxIdleSize : Z;
  maxIdleTime : Duration;
  mutex : M;
  lock : gmap T Z;
  unlock : gmap T Z
}.

Record Machine := {
  pool : NewPool;
  world : World Ctx
}.

Definition set_mutex (m : M) (s : Machine) : Machine :=
  let p := pool s in
  {| pool := {| creator := creator p; maxIdleSize := maxIdleSize p;
                maxIdleTime := maxIdleTime p; mutex := m;
                lock := lock p; unlock := unlock p |};
     world := world s |}.

Definition set_lock (l : gmap T Z) (s : Machine) : Machine :=
  let p := pool s in
  {| pool := {| creator := creator p; maxIdleSize := maxIdleSize p;
                maxIdleTime := maxIdleTime p; mutex := mutex p;
                lock := l; unlock := unlock p |};
     world := world s |}.

Definition set_unlock (u : gmap T Z) (s : Machine) : Machine :=
  let p := pool s in
  {| pool := {| creator := creator p; maxIdleSize := maxIdleSize p;
                maxIdleTime := maxIdleTime p; mutex := mutex p;
                lock := lock p; unlock := u |};
     world := world s |}.

Definition log (e : Event Ctx) (s : Machine) : Machine :=
  let w := world s in
  {| pool := pool s;
     world := {| now := now w; reads := reads w; ranges := ranges w;
                 calls := calls w; trace := trace w ++ [e] |} |}.

(** *** Outcomes and the monad of the methods *)

Inductive Outcome (A : Type) :=
| Returned (a : A) (s : Machine)
| Blocked (s : Machine)
| Fatal (s : Machine).
Arguments Returned {A} a s.
Arguments Blocked {A} s.
Arguments Fatal {A} s.

Definition final {A : Type} (o : Outcome A) : Machine :=
  match o with
  | Returned _ s | Blocked s | Fatal s => s
  end.

Definition Go (A : Type) : Type := Machine → Outcome A.

#[local] Instance Go_ret : MRet Go := λ A a s, Returned a s.

#[local] Instance Go_bind : MBind Go := λ A B f m s,
  match m s with
  | Returned a s' => f a s'
  | Blocked s' => Blocked s'
  | Fatal s' => Fatal s'
  end.

Definition get_pool : Go NewPool := λ s, Returned (pool s) s.
Definition put_lock (l : gmap T Z) : Go unit := λ s, Returned () (set_lock l s).
Definition put_unlock (u : gmap T Z) : Go unit := λ s, Returned () (set_unlock u s).

(** [n.mutex.Lock()] *)
Definition mutex_Lock : Go unit := λ s,
  let s := log EvLock s in
  match Lock (mutex (pool s)) with
  | Some m => Returned () (set_mutex m s)
  | None => Blocked s
  end.

(** [n.mutex.Unlock()] *)
Definition mutex_Unlock : Go unit := λ s,
  let s := log EvUnlock s in
  match Unlock (mutex (pool s)) with
  | Some m => Returned () (set_mutex m s)
  | None => Fatal s
  end.

(** The reading the next [time.Now()] returns. *)
Definition next_now (s : Machine) : Z :=
  now (world s) + Z.of_N (elapse env (reads (world s))).

(** The machine after a reading of the clock. *)
Definition tick (s : Machine) : Machine :=
  let w := world s in
  {| pool := pool s;
     world := {| now := next_now s; reads := S (reads w); ranges := ranges w;
                 calls := calls w; trace := trace w |} |}.

(** The machine after a [range] statement picked its order. *)
Definition ranged (s : Machine) : Machine :=
  let w := world s in
  {| pool := pool s;
     world := {| now := now w; reads := reads w; ranges := S (ranges w);
                 calls := calls w; trace := trace w |} |}.

(** The machine after a call of the creator. *)
Definition called (ctx : Ctx) (s : Machine) : Machine :=
  let w := world s in
  {| pool := pool s;
     world := {| now := now w; reads := reads w; ranges := ranges w;
                 calls := S (calls w); trace := trace w ++ [EvCreator ctx] |} |}.

(** [time.Now()] *)
Definition time_Now : Go Z := λ s, Returned (next_now s) (tick s).

(** [fmt.Println(msg)] *)
Definition Println (msg : string) : Go unit := λ s,
  Returned () (log (EvPrintln msg) s).

(** [n.creator(ctx)] *)
Definition call_creator (ctx : Ctx) : Go (T * option Err) := λ s,
  Returned (creator (pool s) (calls (world s)) ctx) (called ctx s).

(** The entries a [for k, v := range m] visits, in visiting order. *)
Definition range_map (m : gmap T Z) : Go (list (T * Z)) := λ s,
  Returned (range_order (order env (ranges (world s))) (map_to_list m))
           (ranged s).

(** *** The methods of [NewPool] *)

(** [func (n NewPool[T]) getValidTimestamp() time.Time] *)
Definition getValidTimestamp : Go Z :=
  t ← time_Now;
  n ← get_pool;
  mret (Time_Add t (Duration_mul (-1) (maxIdleTime n))).

(** The body of the loop of [deleteInvalidIdleResources]. *)
Definition sweep_step (validTimestamp : Z) (m : gmap T Z) (e : T * Z) : gmap T Z :=
  if Time_Before e.2 validTimestamp then delete e.1 m else m.

(** [func (n NewPool[T]) deleteInvalidIdleResources()] *)
Definition deleteInvalidIdleResources : Go unit :=
  validTimestamp ← getValidTimestamp;
  n ← get_pool;
  entries ← range_map (unlock n);
  put_unlock (foldl (sweep_step validTimestamp) (unlock n) entries).

(** [func (n NewPool[T]) getIdleResource() (T, bool)] *)
Definition getIdleResource : Go (T * bool) :=
  n ← get_pool;
  entries ← range_map (unlock n);
  match entries with
  | (resource, _) :: _ =>
      put_unlock (delete resource (unlock n));;
      t ← time_Now;
      put_lock (<[resource := t]> (lock n));;
      mret (resource, true)
  | [] => mret (zero, false)
  end.

(** [func (n NewPool[T]) NumIdle() int] *)
Definition NumIdle : Go Z :=
  mutex_Lock;;
  n ← get_pool;
  let result := Z.of_nat (size (unlock n)) in
  mutex_Unlock;;
  mret result.

(** [func (n NewPool[T]) Acquire(ctx context.Context) (T, error)],
    between [Lock] and the deferred [Unlock]. *)
Definition Acquire_locked (ctx : Ctx) : Go (T * option Err) :=
  deleteInvalidIdleResources;;
  '(resource, isSuccess) ← getIdleResource;
  if (isSuccess : bool) then mret (resource, None)
  else
    '(resource, err) ← call_creator ctx;
    match err with
    | Some err => mret (zero, Some err)
    | None =>
        t ← time_Now;
        n ← get_pool;
        put_lock (<[resource := t]> (lock n));;
        mret (resource, None)
    end.

Definition Acquire (ctx : Ctx) : Go (T * option Err) :=
  mutex_Lock;;
  result ← Acquire_locked ctx;
  mutex_Unlock;;
  mret result.

Definition msg_not_acquired : string :=
  "resource not previously acquired; not returning to idle resource pool".
Definition msg_expired : string :=
  "resource already expired; not returning to idle resource pool".

(** [func (n NewPool[T]) Release(resource T)], between [Lock] and the
    deferred [Unlock]. *)
Definition Release_locked (resource : T) : Go unit :=
  n ← get_pool;
  match lock n !! resource with
  | None => Println msg_not_acquired
  | Some savedTimestamp =>
      put_lock (delete resource (lock n));;
      validTimestamp ← getValidTimestamp;
      if Time_Before savedTimestamp validTimestamp then Println msg_expired
      else
        idle ← NumIdle;
        n ← get_pool;
        if bool_decide (maxIdleSize n ≤ idle) then Println msg_expired
        else
          t ← time_Now;
          n ← get_pool;
          put_unlock (<[resource := t]> (unlock n))
  end.

Definition Release (resource : T) : Go unit :=
  mutex_Lock;;
  Release_locked resource;;
  mutex_Unlock.

(** *** Sequences of calls *)

Inductive Op :=
| OpAcquire (ctx : Ctx)
| OpRelease (resource : T)
| OpNumIdle.

Definition exec (op : Op) (s : Machine) : Outcome unit :=
  match op with
  | OpAcquire ctx => (Acquire ctx;; mret ()) s
  | OpRelease resource => Release resource s
  | OpNumIdle => (NumIdle;; mret ()) s
  end.

(** The calls of a sequence are made one after the other, each by a
    goroutine of its own: a caller blocked in [Lock] stays where it is
    while the later calls are made; after a fatal error nothing runs. *)
Fixpoint run (ops : list Op) (s : Machine) : Machine :=
  match ops with
  | [] => s
  | op :: ops' =>
      match exec op s with
      | Returned _ s' | Blocked s' => run ops' s'
      | Fatal s' => s'
      end
  end.

(** *** Notions used to state the properties *)

(** The threshold [getValidTimestamp] computes in state [s]. *)
Definition valid_at (s : Machine) : Z :=
  Time_Add (next_now s) (Duration_mul (-1) (maxIdleTime (pool s))).

(** The idle entries that survive a sweep with threshold [v]. *)
Definition swept (v : Z) (m : gmap T Z) : gmap T Z :=
  filter (λ e : T * Z, ¬ e.2 < v) m.

(** The entry [getIdleResource] picks in state [s], if any. *)
Definition first_idle (s : Machine) : option (T * Z) :=
  head (range_order (order env (ranges (world s))) (map_to_list (unlock (pool s)))).

(** The mutex is free: a [Lock] is granted and the [Unlock] that follows
    it succeeds. *)
Definition lock_free (mu : M) : Prop :=
  ∃ mu1 mu2 : M, Lock mu = Some mu1 ∧ Unlock mu1 = Some mu2.

(** The idle entry [Acquire] selects in state [s], if any: the first one a
    [range] visits in the idle map as the sweep left it. *)
Definition selected (s : Machine) : option (T * Z) :=
  head (range_order (order env (S (ranges (world s))))
          (map_to_list (swept (valid_at s) (unlock (pool s))))).

(** An idle or checkout timestamp is expired in state [s] when it is
    before the threshold [getValidTimestamp] computes there. *)
Definition expired_at (s : Machine) (ts : Z) : Prop := ts < valid_at s.

(** No resource is both in use and idle. *)
Definition exclusive (p : NewPool) : Prop :=
  ∀ r, ¬ (is_Some (lock p !! r) ∧ is_Some (unlock p !! r)).

(** The idle map holds at most [maxIdleSize] entries. *)
Definition within_cap (p : NewPool) : Prop :=
  Z.of_nat (size (unlock p)) ≤ maxIdleSize p.

End Pool.

#[export] Existing Instance Go_ret.
#[export] Existing Instance Go_bind.

Arguments Returned {T _ _ Err Ctx M A} a s.
Arguments Blocked {T _ _ Err Ctx M A} s.
Arguments Fatal {T _ _ Err Ctx M A} s.

(** [func New[T comparable](creator, maxIdleSize, maxIdleTime) Pool[T]]:
    a fresh [sync.Mutex] and two empty maps. *)
Definition New {T : Type} `{Countable T} {Err Ctx : Type}
    (creator : nat → Ctx → T * option Err)
    (maxIdleSize : Z) (maxIdleTime : Duration) : @NewPool T _ _ Err Ctx sync_Mutex :=
  {| creator := creator; maxIdleSize := maxIdleSize; maxIdleTime := maxIdleTime;
     mutex := false; lock := ∅; unlock := ∅ |}.

(** The machine at the start of a program, at clock reading [t0]. *)
Definition boot {T : Type} `{Countable T} {Err Ctx M : Type}
    (p : @NewPool T _ _ Err Ctx M) (t0 : Z) : Machine :=
  {| pool := p;
     world := {| now := t0; reads := 0; ranges := 0; calls := 0; trace := [] |} |}.

(** ** A concrete setting, after the test file

    Resources are numbered; the creator of [getMockCreatorFunc] numbers them
    1, 2, ...; [maxIdleSize = 3] and [maxIdleTime = 5s]. *)
Module Test.
Definition second : Duration := 1000000000.

Definition getMockCreatorFunc : nat → unit → nat * option string :=
  λ id _, (S id, None).
Definition getErrorMockCreatorFunc : nat → unit → nat * option string :=
  λ _ _, (0%nat, Some "error response"%string).

(** One millisecond between two readings of the clock; maps are visited
    in the order of [map_to_list]. *)
Definition env : Env := {| elapse := λ _, 1000000%N; order := λ _, 0%nat |}.

(** The pool literal of the tests: a mutex, the used and the idle map. *)
Definition pool_of {M : Type} (creator : nat → unit → nat * option string)
    (mu : M) (used idle : list (nat * Z)) : @NewPool nat _ _ string unit M :=
  {| creator := creator; maxIdleSize := 3; maxIdleTime := 5 * second;
     mutex := mu; lock := list_to_map used; unlock := list_to_map idle |}.

Definition maxIdleSize : Z := 3.
Definition maxIdleTime : Duration := 5 * second.
End Test.


Module Scenario.
Import Test.

Definition start : @Machine nat _ _ string unit sync_Mutex :=
  boot (New getMockCreatorFunc maxIdleSize maxIdleTime) 0.

(** A clock whose third reading comes exactly [maxIdleTime] after the
    second one. *)
Definition env_boundary : Env :=
  {| elapse := λ k, if (k =? 2)%nat then 5000000000%N else 1000000%N;
     order := λ _, 0%nat |}.

(** One expired idle entry, a creator that fails. *)
Definition expired_idle_failing : @Machine nat _ _ string unit sync_Mutex :=
  boot (pool_of getErrorMockCreatorFunc false [] [(2%nat, 0)]) (100 * second).

(** One expired and one fresh idle entry. *)
Definition mixed_idle : @Machine nat _ _ string unit sync_Mutex :=
  boot (pool_of getMockCreatorFunc false [] [(1%nat, 0); (2%nat, 100 * second)])
       (100 * second).

(** One expired idle entry. *)
Definition expired_idle : @Machine nat _ _ string unit sync_Mutex :=
  boot (pool_of getMockCreatorFunc false [] [(2%nat, 0)]) (100 * second).

(** Resource 1 in use since the start. *)
Definition one_used : @Machine nat _ _ string unit sync_Mutex :=
  boot (pool_of getMockCreatorFunc false [(1%nat, 0)] []) (100 * second).

(** Resource 2 in use and fresh, the idle map full; the mock mutex. *)
Definition full_idle : @Machine nat _ _ string unit MockMutex :=
  boot (pool_of getMockCreatorFunc []
          [(2%nat, 100 * second)]
          [(5%nat, 100 * second); (6%nat, 100 * second); (7%nat, 100 * second)])
       (100 * second).
End Scenario.

(** ** Further notions and settings *)

(** The runtime [env] in which every [range] takes the order of [code]. *)
Definition env_with_order (env : Env) (code : nat) : Env :=
  {| elapse := elapse env; order := λ _, code |}.

(** No timestamp kept by the pool is later than the last reading of the
    clock. *)
Definition stamped_in_past {T : Type} `{Countable T} {Err Ctx M : Type}
    (s : @Machine T _ _ Err Ctx M) : Prop :=
  ∀ k ts, lock (pool s) !! k = Some ts ∨ unlock (pool s) !! k = Some ts →
          ts ≤ now (world s).

(** The number of [Acquire] calls in a sequence of calls. *)
Fixpoint count_Acquire {T Ctx : Type} (ops : list (@Op T Ctx)) : nat :=
  match ops with
  | [] => 0
  | OpAcquire _ :: ops' => S (count_Acquire ops')
  | _ :: ops' => count_Acquire ops'
  end.

(** The mutex grants a [Lock], a second [Lock] while the first is held, and
    the two [Unlock]s that follow. *)
Definition lock_free_nested {M : Type} `{PoolMutex M} (mu : M) : Prop :=
  ∃ mu1 mu2 mu3 mu4 : M,
    Lock mu = Some mu1 ∧ Lock mu1 = Some mu2 ∧
    Unlock mu2 = Some mu3 ∧ Unlock mu3 = Some mu4.

Module Setup.

(** Resource 2 in use and fresh, nothing idle; the mock mutex. *)
Definition one_used_mock : @Machine nat _ _ string unit MockMutex :=
  boot (Test.pool_of Test.getMockCreatorFunc [] [(2%nat, 100 * Test.second)] []) (100 * Test.second).

(** Resources 1 and 2 in use, resource 5 idle; the mock mutex. *)
Definition busy_mock : @Machine nat _ _ string unit MockMutex :=
  boot (Test.pool_of Test.getMockCreatorFunc []
          [(1%nat, 100 * Test.second); (2%nat, 100 * Test.second)]
          [(5%nat, 100 * Test.second)])
       (100 * Test.second).

(** Resource 1 in use and fresh, with a cap of zero; the mock mutex. *)
Definition zero_cap : @Machine nat _ _ string unit MockMutex :=
  boot {| creator := Test.getMockCreatorFunc; maxIdleSize := 0;
          maxIdleTime := 5 * Test.second; mutex := [];
          lock := {[1%nat := 100 * Test.second]}; unlock := ∅ |}
       (100 * Test.second).

(** A pool built by [New] whose mutex a blocked caller holds, resource 1
    lost by that caller. *)
Definition held : @Machine nat _ _ string unit sync_Mutex :=
  boot {| creator := Test.getMockCreatorFunc; maxIdleSize := 3;
          maxIdleTime := 5 * Test.second; mutex := true;
          lock := ∅; unlock := ∅ |}
       (100 * Test.second).

(** Three fresh idle entries, nothing in use; a free [sync.Mutex]. *)
Definition three_idle : @Machine nat _ _ string unit sync_Mutex :=
  boot (Test.pool_of Test.getMockCreatorFunc false []
          [(5%nat, 100 * Test.second); (6%nat, 100 * Test.second); (7%nat, 100 * Test.second)])
       (100 * Test.second).
(** Resource 2 in use and fresh, nothing idle; a free [sync.Mutex]. *)
Definition one_used_sync : @Machine nat _ _ string unit sync_Mutex :=
  boot (Test.pool_of Test.getMockCreatorFunc false [(2%nat, 100 * Test.second)] [])
       (100 * Test.second).
(** Resource 1 in use, a negative [maxIdleTime]; a free [sync.Mutex]. *)
Definition negative_idle_time : @Machine nat _ _ string unit sync_Mutex :=
  boot {| creator := Test.getMockCreatorFunc; maxIdleSize := 3;
          maxIdleTime := - Test.second; mutex := false;
          lock := {[1%nat := 100 * Test.second]}; unlock := ∅ |}
       (100 * Test.second).

(** The duration that has no negation, [math.MinInt64]; nothing in use. *)
Definition never_idle : @Machine nat _ _ string unit sync_Mutex :=
  boot (New Test.getMockCreatorFunc 3 min_int64) (100 * Test.second).
End Setup.

(** * Properties *)

(** ** The order of a [range] *)

Lemma shuffle_perm {A : Type} (fuel code : nat) (l : list A) :
  length l = fuel → shuffle fuel code l ≡ₚ l.
Proof.
  revert code l. induction fuel as [|fuel IH]; intros code l Hlen; simpl.
  - destruct l; [done | discriminate].
  - destruct (l !! (code `mod` length l)%nat) as [x|] eqn:Hx.
    + etrans; [|symmetry; exact (delete_Permutation l _ x Hx)].
      constructor. apply IH. rewrite length_delete by eauto. lia.
    + apply lookup_ge_None in Hx.
      assert (code `mod` length l < length l)%nat; [|lia].
      apply Nat.mod_upper_bound. lia.
Qed.

Lemma range_order_perm {A : Type} (code : nat) (l : list A) :
  range_order code l ≡ₚ l.
Proof. by apply shuffle_perm. Qed.

(** Every entry can be the one a [range] visits first. *)
Lemma range_order_any_first {A : Type} (l : list A) (i : nat) (x : A) :
  l !! i = Some x → head (range_order i l) = Some x.
Proof.
  intros Hx. pose proof (lookup_lt_Some _ _ _ Hx) as Hlt.
  unfold range_order. destruct (length l) as [|n] eqn:Hlen; [lia|].
  simpl. rewrite Hlen, Nat.mod_small by lia. by rewrite Hx.
Qed.

Lemma wrap64_id (z : Z) : min_int64 ≤ z ≤ max_int64 → wrap64 z = z.
Proof.
  unfold min_int64, max_int64, wrap64. intros Hz.
  rewrite Z.mod_small; lia.
Qed.

(** Away from the one duration that has no negation, the threshold is
    [t - d]. *)
Lemma valid_timestamp_sub (t d : Z) :
  min_int64 < d ≤ max_int64 → Time_Add t (Duration_mul (-1) d) = t - d.
Proof.
  intros Hd. unfold Time_Add, Duration_mul.
  rewrite wrap64_id; unfold min_int64, max_int64 in *; lia.
Qed.

Section PoolFacts.
Context {T : Type} `{Countable T} {Err Ctx M : Type} `{PoolMutex M}.
Variable zero : T.
Variable env : Env.

Implicit Types (s : @Machine T _ _ Err Ctx M) (m : gmap T Z) (r : T).

Lemma sweep_foldl_lookup (v : Z) (l : list (T * Z)) m k :
  foldl (sweep_step v) m l !! k =
    if bool_decide (Exists (λ e : T * Z, e.1 = k ∧ e.2 < v) l)
    then None else m !! k.
Proof.
  revert m. induction l as [|[k' ts'] l IH]; intros m; cbn [foldl].
  - rewrite bool_decide_eq_false_2; [done|]. by intros ?%Exists_nil.
  - rewrite IH. unfold sweep_step, Time_Before; cbn [fst snd].
    destruct (Z.ltb_spec ts' v) as [Hlt|Hge].
    + destruct (decide (k' = k)) as [->|Hne].
      * rewrite lookup_delete_eq.
        rewrite (bool_decide_eq_true_2 (Exists _ ((k, ts') :: l))).
        2:{ by left. }
        by case_bool_decide.
      * rewrite lookup_delete_ne by done.
        apply (f_equal (λ b : bool, if b then None else m !! k)).
        apply bool_decide_ext. rewrite Exists_cons. cbn [fst snd]. tauto.
    + apply (f_equal (λ b : bool, if b then None else m !! k)).
      apply bool_decide_ext. rewrite Exists_cons. cbn [fst snd].
      split; [tauto|]. intros [[_ ?]|?]; [lia|done].
Qed.

(** Whatever the visiting order, the loop of [deleteInvalidIdleResources]
    leaves exactly the entries that are not before the threshold. *)
Lemma sweep_any_order (v : Z) (code : nat) m :
  foldl (sweep_step v) m (range_order code (map_to_list m)) = swept v m.
Proof.
  apply map_eq. intros k. rewrite sweep_foldl_lookup. unfold swept.
  destruct (m !! k) as [ts|] eqn:Hk.
  - destruct (decide (ts < v)) as [Hlt|Hge].
    + rewrite bool_decide_eq_true_2.
      * symmetry. apply map_lookup_filter_None. right. intros ts' Hk'. simpl.
        rewrite Hk in Hk'. injection Hk' as <-. tauto.
      * apply Exists_exists. exists (k, ts). split; [|done].
        rewrite range_order_perm. by apply elem_of_map_to_list.
    + rewrite bool_decide_eq_false_2.
      * symmetry. by apply map_lookup_filter_Some.
      * intros ([k' ts'] & Hin & Hk' & Hts')%Exists_exists. simpl in *. subst k'.
        rewrite range_order_perm in Hin.
        apply elem_of_map_to_list in Hin. rewrite Hk in Hin.
        injection Hin as <-. lia.
  - rewrite (proj2 (map_lookup_filter_None _ m k)) by (by left).
    by case_bool_decide.
Qed.

(** *** What each method computes *)

Lemma deleteInvalidIdleResources_eq s :
  deleteInvalidIdleResources env s =
    Returned () (set_unlock (swept (valid_at env s) (unlock (pool s))) (ranged (tick env s))).
Proof.
  unfold deleteInvalidIdleResources, getValidTimestamp, time_Now, get_pool,
    range_map, put_unlock, mbind, Go_bind, mret, Go_ret.
  cbn [pool world tick ranged ranges].
  rewrite sweep_any_order. reflexivity.
Qed.

Lemma first_idle_Some s r ts :
  first_idle env s = Some (r, ts) → unlock (pool s) !! r = Some ts.
Proof.
  unfold first_idle. intros Hhd. apply elem_of_map_to_list.
  rewrite <- (range_order_perm (order env (ranges (world s)))).
  destruct (range_order _ _) as [|e l]; simplify_eq/=. by left.
Qed.

Lemma first_idle_None s : first_idle env s = None → unlock (pool s) = ∅.
Proof.
  unfold first_idle. intros Hhd. apply map_to_list_empty_iff.
  apply Permutation_nil_r.
  rewrite <- (range_order_perm (order env (ranges (world s)))).
  by destruct (range_order _ _).
Qed.

Lemma getIdleResource_eq s :
  getIdleResource zero env s =
    match first_idle env s with
    | Some (r, _) =>
        Returned (r, true)
          (set_lock (<[r := next_now env (ranged s)]> (lock (pool s)))
             (tick env (set_unlock (delete r (unlock (pool s))) (ranged s))))
    | None => Returned (zero, false) (ranged s)
    end.
Proof.
  unfold getIdleResource, first_idle, time_Now, get_pool, range_map, put_unlock,
    put_lock, mbind, Go_bind, mret, Go_ret.
  destruct (range_order _ _) as [|[r ts] l]; reflexivity.
Qed.

Lemma selected_Some s r ts :
  selected env s = Some (r, ts) →
  unlock (pool s) !! r = Some ts ∧ ¬ ts < valid_at env s.
Proof.
  unfold selected. intros Hhd.
  assert ((r, ts) ∈ map_to_list (swept (valid_at env s) (unlock (pool s)))) as Hin.
  { rewrite <- (range_order_perm (order env (S (ranges (world s))))).
    destruct (range_order _ _) as [|e l]; simplify_eq/=. by left. }
  apply elem_of_map_to_list in Hin. unfold swept in Hin.
  by apply map_lookup_filter_Some in Hin.
Qed.

Lemma selected_None s :
  selected env s = None → swept (valid_at env s) (unlock (pool s)) = ∅.
Proof.
  unfold selected. intros Hhd. apply map_to_list_empty_iff.
  apply Permutation_nil_r.
  rewrite <- (range_order_perm (order env (S (ranges (world s))))).
  by destruct (range_order _ _).
Qed.

(** [Acquire] on a free mutex, case by case. *)
Lemma Acquire_spec ctx s :
  lock_free (mutex (pool s)) →
  ∃ x s',
    Acquire zero env ctx s = Returned x s' ∧
    creator (pool s') = creator (pool s) ∧
    maxIdleSize (pool s') = maxIdleSize (pool s) ∧
    maxIdleTime (pool s') = maxIdleTime (pool s) ∧
    next_now env s ≤ now (world s') ∧
    match selected env s with
    | Some (r, _) =>
        x = (r, None) ∧
        lock (pool s') = <[r := now (world s')]> (lock (pool s)) ∧
        unlock (pool s') = delete r (swept (valid_at env s) (unlock (pool s))) ∧
        calls (world s') = calls (world s) ∧
        trace (world s') = trace (world s) ++ [EvLock; EvUnlock]
    | None =>
        unlock (pool s') = ∅ ∧
        calls (world s') = S (calls (world s)) ∧
        trace (world s') = trace (world s) ++ [EvLock; EvCreator ctx; EvUnlock] ∧
        match creator (pool s) (calls (world s)) ctx with
        | (_, Some err) =>
            x = (zero, Some err) ∧ lock (pool s') = lock (pool s)
        | (resource, None) =>
            x = (resource, None) ∧
            lock (pool s') = <[resource := now (world s')]> (lock (pool s))
        end
    end.
Proof.
  intros (mu1 & mu2 & Hlock & Hunlock).
  pose proof (selected_None s) as Hnone.
  unfold Acquire, Acquire_locked, mutex_Lock, mutex_Unlock, mbind, Go_bind.
  cbn [log pool world]. rewrite Hlock.
  rewrite deleteInvalidIdleResources_eq, getIdleResource_eq.
  unfold first_idle, selected in *.
  cbn [set_unlock set_mutex set_lock log ranged tick pool world unlock ranges] in *.
  change (valid_at env _) with (valid_at env s).
  destruct (head _) as [[r ts]|].
  - unfold mret, Go_ret. cbn. rewrite Hunlock. cbn.
    do 2 eexists. split; [reflexivity|]. cbn. unfold next_now. cbn.
    repeat split; try done.
    + unfold next_now; cbn. lia.
    + by rewrite <- app_assoc.
  - unfold call_creator, time_Now, get_pool, put_lock, mret, Go_ret. cbn.
    destruct (creator (pool s) (calls (world s)) ctx) as [res [err|]] eqn:Hc; cbn;
      rewrite Hunlock; cbn; do 2 eexists; (split; [reflexivity|]); cbn;
      unfold next_now; cbn;
      repeat split; try done; rewrite ?Hnone by done; try done;
      try (unfold next_now; cbn; lia);
      by rewrite <- !app_assoc.
Qed.

(** *** The maps after a call, whatever its outcome *)

Ltac go_unfold :=
  unfold Release, Release_locked, NumIdle, getValidTimestamp, mutex_Lock,
    mutex_Unlock, time_Now, get_pool, put_lock, put_unlock, Println,
    call_creator, mbind, Go_bind, mret, Go_ret.

Lemma Acquire_maps ctx s :
  let s' := final (Acquire zero env ctx s) in
  maxIdleSize (pool s') = maxIdleSize (pool s) ∧
  maxIdleTime (pool s') = maxIdleTime (pool s) ∧
  creator (pool s') = creator (pool s) ∧
  ((lock (pool s') = lock (pool s) ∧ unlock (pool s') = unlock (pool s)) ∨
   (∃ r t, lock (pool s') = <[r := t]> (lock (pool s)) ∧
           unlock (pool s') = delete r (swept (valid_at env s) (unlock (pool s)))) ∨
   (unlock (pool s') = ∅ ∧
    (lock (pool s') = lock (pool s) ∨
     ∃ r t, lock (pool s') = <[r := t]> (lock (pool s))))).
Proof.
  pose proof (selected_None s) as Hnone.
  unfold Acquire, Acquire_locked. go_unfold. cbn [log pool world].
  destruct (Lock (mutex (pool s))) as [mu1|]; [|cbn; auto 10].
  rewrite deleteInvalidIdleResources_eq, getIdleResource_eq.
  unfold first_idle, selected in *.
  cbn [set_unlock set_mutex set_lock log ranged tick pool world unlock ranges] in *.
  change (valid_at env _) with (valid_at env s).
  destruct (head _) as [[r ts]|].
  - cbn. destruct (Unlock mu1); cbn; eauto 10.
  - cbn. rewrite Hnone by done.
    destruct (creator (pool s) (calls (world s)) ctx) as [res [err|]]; cbn;
      destruct (Unlock mu1); cbn; eauto 10.
Qed.

Lemma NumIdle_maps s :
  pool (final (NumIdle s)) =
    {| creator := creator (pool s); maxIdleSize := maxIdleSize (pool s);
       maxIdleTime := maxIdleTime (pool s);
       mutex := mutex (pool (final (NumIdle s)));
       lock := lock (pool s); unlock := unlock (pool s) |}.
Proof.
  go_unfold. cbn [log pool world].
  destruct (Lock (mutex (pool s))) as [mu1|]; cbn; [|by destruct s as [[]]].
  destruct (Unlock mu1); cbn; done.
Qed.

Lemma Release_maps r s :
  let s' := final (Release env r s) in
  maxIdleSize (pool s') = maxIdleSize (pool s) ∧
  maxIdleTime (pool s') = maxIdleTime (pool s) ∧
  creator (pool s') = creator (pool s) ∧
  calls (world s') = calls (world s) ∧
  ((lock (pool s') = lock (pool s) ∧ unlock (pool s') = unlock (pool s)) ∨
   (is_Some (lock (pool s) !! r) ∧
    lock (pool s') = delete r (lock (pool s)) ∧
    (unlock (pool s') = unlock (pool s) ∨
     ∃ t, unlock (pool s') = <[r := t]> (unlock (pool s)) ∧
          Z.of_nat (size (unlock (pool s))) < maxIdleSize (pool s)))).
Proof.
  go_unfold. cbn [log pool world].
  destruct (Lock (mutex (pool s))) as [mu1|]; [|cbn; auto 10].
  cbn [set_mutex pool lock].
  destruct (lock (pool s) !! r) as [ts|] eqn:Hr; cbn; rewrite ?Hr; cbn.
  2:{ destruct (Unlock mu1); cbn; auto 10. }
  destruct (Time_Before ts _); cbn.
  { destruct (Unlock mu1); cbn; eauto 10. }
  destruct (Lock mu1) as [mu2|]; cbn; [|eauto 10].
  destruct (Unlock mu2) as [mu3|]; cbn; [|eauto 10].
  case_bool_decide; cbn.
  - destruct (Unlock mu3); cbn; eauto 10.
  - destruct (Unlock mu3); cbn; repeat split; try done;
      right; (split; [done|]); (split; [done|]); right; eexists; (split; [done|lia]).
Qed.

(** *** [Release], path by path *)

Lemma valid_at_sub s :
  min_int64 < maxIdleTime (pool s) ≤ max_int64 →
  valid_at env s = next_now env s - maxIdleTime (pool s).
Proof. apply valid_timestamp_sub. Qed.

Lemma Release_not_acquired r s :
  lock (pool s) !! r = None →
  lock_free (mutex (pool s)) →
  ∃ s', Release env r s = Returned () s' ∧
        trace (world s') =
          trace (world s) ++ [EvLock; EvPrintln msg_not_acquired; EvUnlock].
Proof.
  intros Hr (mu1 & mu2 & Hlock & Hunlock).
  go_unfold. cbn [log pool world]. rewrite Hlock. cbn. rewrite Hr. cbn.
  rewrite Hunlock. eexists. split; [reflexivity|]. cbn.
  by rewrite <- !app_assoc.
Qed.

Lemma Release_expired r ts s :
  lock (pool s) !! r = Some ts →
  expired_at env s ts →
  lock_free (mutex (pool s)) →
  ∃ s', Release env r s = Returned () s' ∧
        lock (pool s') = delete r (lock (pool s)) ∧
        unlock (pool s') = unlock (pool s) ∧
        trace (world s') =
          trace (world s) ++ [EvLock; EvPrintln msg_expired; EvUnlock].
Proof.
  intros Hr Hts (mu1 & mu2 & Hlock & Hunlock).
  go_unfold. cbn [log pool world]. rewrite Hlock. cbn. rewrite Hr. cbn.
  unfold expired_at, valid_at in Hts.
  unfold Time_Before. rewrite (proj2 (Z.ltb_lt _ _)) by exact Hts. cbn.
  rewrite Hunlock. eexists. split; [reflexivity|]. cbn.
  by rewrite <- !app_assoc.
Qed.

(** Once the resource is found, it leaves the in-use map, whatever
    happens next. *)
Lemma Release_found_lock r ts s :
  lock (pool s) !! r = Some ts →
  is_Some (Lock (mutex (pool s))) →
  lock (pool (final (Release env r s))) = delete r (lock (pool s)).
Proof.
  intros Hr [mu1 Hlock].
  go_unfold. cbn [log pool world]. rewrite Hlock. cbn. rewrite Hr. cbn.
  destruct (Time_Before ts _); cbn.
  { destruct (Unlock mu1); cbn; done. }
  destruct (Lock mu1) as [mu2|]; cbn; [|done].
  destruct (Unlock mu2) as [mu3|]; cbn; [|done].
  case_bool_decide; cbn; destruct (Unlock mu3); cbn; done.
Qed.

(** The path of a resource that is found and not expired: [Release] calls
    [NumIdle], which locks the mutex a second time. *)
Lemma Release_fresh r ts s (mu1 : M) :
  lock (pool s) !! r = Some ts →
  ¬ expired_at env s ts →
  Lock (mutex (pool s)) = Some mu1 →
  let s1 := log EvLock (tick env (set_lock (delete r (lock (pool s)))
                                   (set_mutex mu1 (log EvLock s)))) in
  match Lock mu1 with
  | None => Release env r s = Blocked s1
  | Some mu2 =>
      match Unlock mu2 with
      | None => Release env r s = Fatal (log EvUnlock (set_mutex mu2 s1))
      | Some mu3 =>
          let s2 := set_mutex mu3 (log EvUnlock (set_mutex mu2 s1)) in
          let s3 :=
            if bool_decide (maxIdleSize (pool s) ≤ Z.of_nat (size (unlock (pool s))))
            then log (EvPrintln msg_expired) s2
            else set_unlock (<[r := next_now env s2]> (unlock (pool s))) (tick env s2) in
          match Unlock mu3 with
          | None => Release env r s = Fatal (log EvUnlock s3)
          | Some mu4 => Release env r s = Returned () (set_mutex mu4 (log EvUnlock s3))
          end
      end
  end.
Proof.
  intros Hr Hts Hlock.
  go_unfold. cbn [log pool world]. rewrite Hlock. cbn. rewrite Hr. cbn.
  unfold expired_at, valid_at in Hts.
  unfold Time_Before.
  match goal with |- context [ts <? ?v] =>
    destruct (Z.ltb_spec ts v) as [Hlt|_]; [exfalso; exact (Hts Hlt)|] end.
  cbn.
  destruct (Lock mu1) as [mu2|]; cbn; [|done].
  destruct (Unlock mu2) as [mu3|]; cbn; [|done].
  case_bool_decide; cbn; destruct (Unlock mu3); cbn; done.
Qed.

Lemma NumIdle_spec s :
  lock_free (mutex (pool s)) →
  ∃ s', NumIdle s = Returned (Z.of_nat (size (unlock (pool s)))) s' ∧
        lock (pool s') = lock (pool s) ∧ unlock (pool s') = unlock (pool s) ∧
        trace (world s') = trace (world s) ++ [EvLock; EvUnlock].
Proof.
  intros (mu1 & mu2 & Hlock & Hunlock).
  go_unfold. cbn [log pool world]. rewrite Hlock. cbn. rewrite Hunlock.
  eexists. split; [reflexivity|]. cbn. by rewrite <- !app_assoc.
Qed.

(** *** Invariants over sequences of calls *)

Lemma swept_lookup_Some (v : Z) m k ts :
  swept v m !! k = Some ts → m !! k = Some ts.
Proof. unfold swept. intros [? _]%map_lookup_filter_Some. done. Qed.

Lemma Acquire_exclusive ctx s :
  exclusive (pool s) → exclusive (pool (final (Acquire zero env ctx s))).
Proof.
  intros Hex k [[t1 Hl] [t2 Hu]].
  destruct (Acquire_maps ctx s) as (_ & _ & _ & Hmaps).
  destruct Hmaps as [[El Eu]|[(r & t & El & Eu)|[Eu _]]];
    rewrite ?El, ?Eu in *.
  - apply (Hex k). eauto.
  - destruct (decide (r = k)) as [->|Hne].
    + by rewrite lookup_delete_eq in Hu.
    + rewrite lookup_insert_ne in Hl by done.
      rewrite lookup_delete_ne in Hu by done.
      apply swept_lookup_Some in Hu. apply (Hex k). eauto.
  - by rewrite lookup_empty in Hu.
Qed.

Lemma Release_exclusive r s :
  exclusive (pool s) → exclusive (pool (final (Release env r s))).
Proof.
  intros Hex k [[t1 Hl] [t2 Hu]].
  destruct (Release_maps r s) as (_ & _ & _ & _ & Hmaps).
  destruct Hmaps as [[El Eu]|(_ & El & [Eu|(t & Eu & _)])];
    rewrite ?El, ?Eu in *.
  - apply (Hex k). eauto.
  - destruct (decide (r = k)) as [->|Hne].
    + by rewrite lookup_delete_eq in Hl.
    + rewrite lookup_delete_ne in Hl by done. apply (Hex k). eauto.
  - destruct (decide (r = k)) as [->|Hne].
    + by rewrite lookup_delete_eq in Hl.
    + rewrite lookup_delete_ne in Hl by done.
      rewrite lookup_insert_ne in Hu by done. apply (Hex k). eauto.
Qed.

Lemma final_then_ret {A : Type} (c : Go A) s :
  final ((c;; mret ()) s) = final (c s).
Proof. unfold mbind, Go_bind, mret, Go_ret. by destruct (c s). Qed.

Lemma exec_exclusive op s :
  exclusive (pool s) → exclusive (pool (final (exec zero env op s))).
Proof.
  intros Hex. destruct op as [ctx|r|]; cbn [exec].
  - rewrite final_then_ret. by apply Acquire_exclusive.
  - by apply Release_exclusive.
  - rewrite final_then_ret. rewrite NumIdle_maps. exact Hex.
Qed.

Lemma run_step op ops s :
  run zero env (op :: ops) s = run zero env ops (final (exec zero env op s)) ∨
  run zero env (op :: ops) s = final (exec zero env op s).
Proof. cbn [run]. destruct (exec zero env op s); cbn; auto. Qed.

Lemma run_exclusive ops s :
  exclusive (pool s) → exclusive (pool (run zero env ops s)).
Proof.
  revert s. induction ops as [|op ops IH]; intros s Hex; [done|].
  pose proof (exec_exclusive op s Hex) as Hex'.
  destruct (run_step op ops s) as [-> | ->]; auto.
Qed.

Lemma Acquire_within_cap ctx s :
  within_cap (pool s) → within_cap (pool (final (Acquire zero env ctx s))).
Proof.
  unfold within_cap. intros Hcap.
  destruct (Acquire_maps ctx s) as (-> & _ & _ & Hmaps).
  pose proof (map_size_filter (λ e : T * Z, ¬ e.2 < valid_at env s) (unlock (pool s)))
    as Hsweep. fold (swept (valid_at env s) (unlock (pool s))) in Hsweep.
  destruct Hmaps as [[_ ->]|[(r & t & _ & ->)|[-> _]]]; [done| |].
  - pose proof (map_subseteq_size _ _
                  (delete_subseteq (swept (valid_at env s) (unlock (pool s))) r)).
    lia.
  - rewrite map_size_empty. lia.
Qed.

Lemma Release_within_cap r s :
  within_cap (pool s) → within_cap (pool (final (Release env r s))).
Proof.
  unfold within_cap. intros Hcap.
  destruct (Release_maps r s) as (-> & _ & _ & _ & Hmaps).
  destruct Hmaps as [[_ ->]|(_ & _ & [->|(t & -> & Hlt)])]; [done..|].
  rewrite map_size_insert. destruct (unlock (pool s) !! r); cbn [id]; lia.
Qed.

Lemma exec_within_cap op s :
  within_cap (pool s) → within_cap (pool (final (exec zero env op s))).
Proof.
  intros Hcap. destruct op as [ctx|r|]; cbn [exec].
  - rewrite final_then_ret. by apply Acquire_within_cap.
  - by apply Release_within_cap.
  - rewrite final_then_ret. rewrite NumIdle_maps. exact Hcap.
Qed.

(** The cap is kept along every sequence of calls. *)
Lemma run_within_cap ops s :
  within_cap (pool s) → within_cap (pool (run zero env ops s)).
Proof.
  revert s. induction ops as [|op ops IH]; intros s Hcap; [done|].
  pose proof (exec_within_cap op s Hcap) as Hcap'.
  destruct (run_step op ops s) as [-> | ->]; auto.
Qed.

(** *** The claims about single calls *)

(** C3. If the idle map holds at most [maxIdleSize] entries before a
    [Release], it holds at most [maxIdleSize] entries in the state the call
    ends in, in particular after it completes.  Releasing a resource that
    is in use and not expired while the idle map holds exactly
    [maxIdleSize] entries removes it from the in-use map and leaves the
    idle map as it was. *)
Theorem C3_idle_cap r s :
  Z.of_nat (size (unlock (pool s))) ≤ maxIdleSize (pool s) →
  let s' := final (Release env r s) in
  Z.of_nat (size (unlock (pool s'))) ≤ maxIdleSize (pool s') ∧
  (∀ ts, lock (pool s) !! r = Some ts →
         ¬ expired_at env s ts →
         Z.of_nat (size (unlock (pool s))) = maxIdleSize (pool s) →
         is_Some (Lock (mutex (pool s))) →
         lock (pool s') = delete r (lock (pool s)) ∧
         unlock (pool s') = unlock (pool s)).
Proof.
  intros Hcap s'. subst s'.
  destruct (Release_maps r s) as (Hsize & _ & _ & _ & Hmaps). split.
  - rewrite Hsize.
    destruct Hmaps as [[_ Eu]|(_ & _ & [Eu|(t & Eu & Hlt)])]; rewrite Eu; [done..|].
    rewrite map_size_insert. destruct (unlock (pool s) !! r); cbn [id]; lia.
  - intros ts Hr Hfresh Hfull Hlock. split.
    + by apply (Release_found_lock r ts).
    + destruct Hmaps as [[_ Eu]|(_ & _ & [Eu|(t & Eu & Hlt)])]; [done..|lia].
Qed.

(** C4, amended.  When [Acquire] invokes the factory and the factory fails,
    [Acquire] returns the zero resource and the factory's error as it is,
    and inserts nothing: the in-use map is the one at the start of the
    call, and the idle map is the one the sweep left, which is empty: the
    entries it held at the start of the call were all expired. *)
Theorem C4_factory_failure ctx s err :
  lock_free (mutex (pool s)) →
  calls (world (final (Acquire zero env ctx s))) ≠ calls (world s) →
  (creator (pool s) (calls (world s)) ctx).2 = Some err →
  ∃ s', Acquire zero env ctx s = Returned (zero, Some err) s' ∧
        lock (pool s') = lock (pool s) ∧
        unlock (pool s') = swept (valid_at env s) (unlock (pool s)) ∧
        unlock (pool s') = ∅ ∧
        (∀ k ts, unlock (pool s) !! k = Some ts → expired_at env s ts) ∧
        calls (world s') = S (calls (world s)).
Proof.
  intros Hfree Hcalled Herr.
  destruct (Acquire_spec ctx s Hfree) as (x & s' & Heq & _ & _ & _ & _ & Hcase).
  rewrite Heq in Hcalled. cbn [final] in Hcalled.
  destruct (selected env s) as [[r ts]|] eqn:Hsel.
  { destruct Hcase as (_ & _ & _ & Hsame & _). done. }
  destruct Hcase as (Eu & Hcalls & _ & Hres).
  destruct (creator (pool s) (calls (world s)) ctx) as [res [e|]];
    cbn in Herr; [|done]. injection Herr as ->.
  destruct Hres as [-> El]. exists s'.
  pose proof (selected_None s Hsel) as Hswept.
  repeat split; try done; [by rewrite Hswept|].
  intros k ts Hk. unfold expired_at.
  destruct (decide (ts < valid_at env s)) as [|Hge]; [done|].
  assert (swept (valid_at env s) (unlock (pool s)) !! k = Some ts) as Hin
    by (by apply map_lookup_filter_Some).
  by rewrite Hswept, lookup_empty in Hin.
Qed.

(** C5, amended.  When the idle map holds at least one entry that is not
    expired at the time of the call, [Acquire] returns a resource of the
    idle map that is not expired, without invoking the factory.  It removes
    that entry from the idle map together with the expired entries the
    sweep purges, and keeps every other entry; it inserts the resource into
    the in-use map with the current clock reading as checkout timestamp. *)
Theorem C5_reuse ctx s :
  lock_free (mutex (pool s)) →
  (∃ k ts, unlock (pool s) !! k = Some ts ∧ ¬ expired_at env s ts) →
  ∃ r ts s',
    Acquire zero env ctx s = Returned (r, None) s' ∧
    unlock (pool s) !! r = Some ts ∧ ¬ expired_at env s ts ∧
    calls (world s') = calls (world s) ∧
    trace (world s') = trace (world s) ++ [EvLock; EvUnlock] ∧
    (∀ k t, unlock (pool s') !! k = Some t ↔
            k ≠ r ∧ unlock (pool s) !! k = Some t ∧ ¬ expired_at env s t) ∧
    lock (pool s') = <[r := now (world s')]> (lock (pool s)) ∧
    lock (pool s') !! r = Some (now (world s')) ∧
    next_now env s ≤ now (world s').
Proof.
  intros Hfree (k & tk & Hk & Hfresh).
  destruct (Acquire_spec ctx s Hfree) as (x & s' & Heq & _ & _ & _ & Hnow & Hcase).
  destruct (selected env s) as [[r ts]|] eqn:Hsel.
  - destruct (selected_Some s r ts Hsel) as [Hr Hts].
    destruct Hcase as (-> & El & Eu & Hcalls & Htrace).
    exists r, ts, s'. split_and!; try done.
    + intros k0 t. rewrite Eu. split.
      * intros Hin. destruct (decide (r = k0)) as [->|Hne];
          [by rewrite lookup_delete_eq in Hin|].
        rewrite lookup_delete_ne in Hin by done.
        unfold swept in Hin. apply map_lookup_filter_Some in Hin as [? ?]. done.
      * intros (Hne & Hk0 & Hf). rewrite lookup_delete_ne by done.
        by apply map_lookup_filter_Some.
    + rewrite El. apply lookup_insert_eq.
  - exfalso. pose proof (selected_None s Hsel) as Hswept.
    assert (swept (valid_at env s) (unlock (pool s)) !! k = Some tk) as Hin
      by (by apply map_lookup_filter_Some).
    by rewrite Hswept, lookup_empty in Hin.
Qed.

(** C6.  When the idle map is empty, or holds expired entries only, at the
    time of the call, [Acquire] invokes the factory exactly once, with the
    caller's context.  If the factory succeeds, its resource is inserted
    into the in-use map with the current clock reading as timestamp and is
    returned; if it fails, its error is returned. *)
Theorem C6_fallback ctx s :
  lock_free (mutex (pool s)) →
  (∀ k ts, unlock (pool s) !! k = Some ts → expired_at env s ts) →
  ∃ x s',
    Acquire zero env ctx s = Returned x s' ∧
    calls (world s') = S (calls (world s)) ∧
    trace (world s') = trace (world s) ++ [EvLock; EvCreator ctx; EvUnlock] ∧
    match creator (pool s) (calls (world s)) ctx with
    | (resource, None) =>
        x = (resource, None) ∧
        lock (pool s') = <[resource := now (world s')]> (lock (pool s)) ∧
        lock (pool s') !! resource = Some (now (world s')) ∧
        next_now env s ≤ now (world s')
    | (_, Some err) => x = (zero, Some err)
    end.
Proof.
  intros Hfree Hall.
  destruct (Acquire_spec ctx s Hfree) as (x & s' & Heq & _ & _ & _ & Hnow & Hcase).
  destruct (selected env s) as [[r ts]|] eqn:Hsel.
  { destruct (selected_Some s r ts Hsel) as [Hr Hts].
    destruct Hts. by apply (Hall r). }
  destruct Hcase as (_ & Hcalls & Htrace & Hres).
  exists x, s'. split_and!; try done.
  destruct (creator (pool s) (calls (world s)) ctx) as [res [e|]].
  - by destruct Hres.
  - destruct Hres as [-> El]. split_and!; try done.
    rewrite El. apply lookup_insert_eq.
Qed.

(** C7.  [Acquire] removes every idle entry whose timestamp is older than
    [now - maxIdleTime] before it selects: such an entry is not in the idle
    map afterwards; when the factory is not invoked, the resource returned
    is an idle entry that is not older than [now - maxIdleTime], so it is
    not a swept one, and a swept entry is not moved to the in-use map
    either. *)
Theorem C7_sweep ctx s :
  lock_free (mutex (pool s)) →
  min_int64 < maxIdleTime (pool s) ≤ max_int64 →
  let threshold := next_now env s - maxIdleTime (pool s) in
  ∃ x s',
    Acquire zero env ctx s = Returned x s' ∧
    (∀ k ts, unlock (pool s) !! k = Some ts → ts < threshold →
             unlock (pool s') !! k = None) ∧
    (calls (world s') = calls (world s) →
     (∃ ts, unlock (pool s) !! x.1 = Some ts ∧ ¬ ts < threshold) ∧
     ∀ k ts, unlock (pool s) !! k = Some ts → ts < threshold →
             x.1 ≠ k ∧ lock (pool s') !! k = lock (pool s) !! k) ∧
    (calls (world s') ≠ calls (world s) →
     calls (world s') = S (calls (world s)) ∧
     ∀ k ts, unlock (pool s) !! k = Some ts → ts < threshold).
Proof.
  intros Hfree Hd threshold. subst threshold.
  rewrite <- (valid_at_sub s Hd).
  destruct (Acquire_spec ctx s Hfree) as (x & s' & Heq & _ & _ & _ & Hnow & Hcase).
  exists x, s'. split; [done|].
  destruct (selected env s) as [[r tr]|] eqn:Hsel.
  - destruct (selected_Some s r tr Hsel) as [Hr Htr].
    destruct Hcase as (-> & El & Eu & Hcalls & _). split_and!.
    + intros k ts Hk Hts. rewrite Eu.
      destruct (decide (r = k)) as [->|Hne]; [apply lookup_delete_eq|].
      rewrite lookup_delete_ne by done. apply map_lookup_filter_None.
      right. intros ts' Hk'. cbn. rewrite Hk in Hk'. injection Hk' as <-. tauto.
    + intros _. split; [by exists tr|].
      intros k ts Hk Hts. cbn [fst].
      assert (r ≠ k) as Hne.
      { intros ->. rewrite Hr in Hk. injection Hk as ->. done. }
      split; [done|]. rewrite El. by apply lookup_insert_ne.
    + done.
  - pose proof (selected_None s Hsel) as Hswept.
    destruct Hcase as (Eu & Hcalls & _). split_and!.
    + intros k ts _ _. by rewrite Eu, lookup_empty.
    + lia.
    + intros _. split; [done|]. intros k ts Hk.
      destruct (decide (ts < valid_at env s)) as [|Hge]; [done|].
      assert (swept (valid_at env s) (unlock (pool s)) !! k = Some ts) as Hin
        by (by apply map_lookup_filter_Some).
      by rewrite Hswept, lookup_empty in Hin.
Qed.

(** C8.  [Release] of a value that is not in the in-use map leaves the
    in-use map and the idle map as they are, in every state; on a free
    mutex it returns, having printed the diagnostic. *)
Theorem C8_release_unknown r s :
  lock (pool s) !! r = None →
  lock (pool (final (Release env r s))) = lock (pool s) ∧
  unlock (pool (final (Release env r s))) = unlock (pool s) ∧
  (lock_free (mutex (pool s)) →
   ∃ s', Release env r s = Returned () s' ∧
         trace (world s') =
           trace (world s) ++ [EvLock; EvPrintln msg_not_acquired; EvUnlock]).
Proof.
  intros Hr.
  destruct (Release_maps r s) as (_ & _ & _ & _ & Hmaps).
  destruct Hmaps as [[El Eu]|([? Hin] & _)]; [|by rewrite Hr in Hin].
  split_and!; try done. by apply Release_not_acquired.
Qed.

(** C9.  [Release] of a resource that is in the in-use map removes it from
    that map, whatever happens next; if its checkout timestamp is older
    than [now - maxIdleTime], the call returns and the idle map is as it
    was. *)
Theorem C9_release_found r ts s :
  lock (pool s) !! r = Some ts →
  lock_free (mutex (pool s)) →
  lock (pool (final (Release env r s))) = delete r (lock (pool s)) ∧
  (min_int64 < maxIdleTime (pool s) ≤ max_int64 →
   ts < next_now env s - maxIdleTime (pool s) →
   ∃ s', Release env r s = Returned () s' ∧
         lock (pool s') = delete r (lock (pool s)) ∧
         unlock (pool s') = unlock (pool s)).
Proof.
  intros Hr Hfree. split.
  - destruct Hfree as (mu1 & _ & Hlock & _).
    apply (Release_found_lock r ts); [done|]. by exists mu1.
  - intros Hd Hts. rewrite <- (valid_at_sub s Hd) in Hts.
    destruct (Release_expired r ts s Hr Hts Hfree) as (s' & ? & ? & ? & _).
    by exists s'.
Qed.

End PoolFacts.

(** ** Pools built by [New]: a [sync.Mutex] *)

Section SyncMutex.
Context {T : Type} `{Countable T} {Err Ctx : Type}.
Variable zero : T.
Variable env : Env.

Implicit Types (s : @Machine T _ _ Err Ctx sync_Mutex) (r : T).

Lemma sync_Mutex_free s : mutex (pool s) = false → lock_free (mutex (pool s)).
Proof. intros ->. by exists true, false. Qed.

(** On a [sync.Mutex], releasing a resource that is in use and not expired
    never returns: [Release] holds the mutex when it calls [NumIdle], which
    waits for the same mutex.  The resource has left the in-use map and
    is not in the idle map. *)
Lemma Release_sync_blocks r ts s :
  lock (pool s) !! r = Some ts →
  ¬ expired_at env s ts →
  mutex (pool s) = false →
  ∃ s', Release env r s = Blocked s' ∧
        trace (world s') = trace (world s) ++ [EvLock; EvLock] ∧
        mutex (pool s') = true ∧
        lock (pool s') = delete r (lock (pool s)) ∧
        unlock (pool s') = unlock (pool s).
Proof.
  intros Hr Hfresh Hmu.
  pose proof (Release_fresh env r ts s true Hr Hfresh) as Hrel.
  rewrite Hmu in Hrel. specialize (Hrel eq_refl). cbn in Hrel.
  eexists. split; [exact Hrel|]. cbn. by rewrite <- app_assoc.
Qed.

(** Once a caller is blocked inside [Release], the mutex stays held and
    every later call blocks in its first [Lock]. *)
Lemma held_blocks_all (op : Op) s :
  mutex (pool s) = true →
  exec zero env op s = Blocked (log EvLock s).
Proof.
  intros Hmu. destruct op as [ctx|r|]; cbn [exec];
    unfold Acquire, Release, NumIdle, mutex_Lock, mbind, Go_bind;
    cbn [log pool]; by rewrite Hmu.
Qed.

End SyncMutex.

(** ** The mock mutex of the tests *)

Section MockMutex.
Context {T : Type} `{Countable T} {Err Ctx : Type}.
Variable env : Env.

Implicit Types (s : @Machine T _ _ Err Ctx MockMutex) (r : T).

Lemma MockMutex_free s : lock_free (mutex (pool s)).
Proof. by do 2 eexists. Qed.

(** With a mutex that grants every [Lock], a resource that is in use and
    not expired goes back to the idle map when there is room. *)
Lemma Release_mock_readmits r ts s :
  lock (pool s) !! r = Some ts →
  ¬ expired_at env s ts →
  Z.of_nat (size (unlock (pool s))) < maxIdleSize (pool s) →
  ∃ s', Release env r s = Returned () s' ∧
        lock (pool s') = delete r (lock (pool s)) ∧
        unlock (pool s') = <[r := now (world s')]> (unlock (pool s)).
Proof.
  intros Hr Hfresh Hroom.
  pose proof (Release_fresh env r ts s _ Hr Hfresh eq_refl) as Hrel.
  cbn in Hrel. rewrite bool_decide_eq_false_2 in Hrel by lia.
  eexists. split; [exact Hrel|]. done.
Qed.

(** With the same mutex, at capacity, [Release] returns and discards. *)
Lemma Release_mock_full r ts s :
  lock (pool s) !! r = Some ts →
  ¬ expired_at env s ts →
  maxIdleSize (pool s) ≤ Z.of_nat (size (unlock (pool s))) →
  ∃ s', Release env r s = Returned () s' ∧
        lock (pool s') = delete r (lock (pool s)) ∧
        unlock (pool s') = unlock (pool s).
Proof.
  intros Hr Hfresh Hfull.
  pose proof (Release_fresh env r ts s _ Hr Hfresh eq_refl) as Hrel.
  cbn in Hrel. rewrite bool_decide_eq_true_2 in Hrel by lia.
  eexists. split; [exact Hrel|]. done.
Qed.

End MockMutex.

(** The comparison of the sweep is strict: an entry whose timestamp is the
    threshold itself stays. *)
Lemma swept_keeps_boundary {T : Type} `{Countable T} (v : Z) (m : gmap T Z) (k : T) :
  m !! k = Some v → swept v m !! k = Some v.
Proof. intros Hk. apply map_lookup_filter_Some. split; [done|]. cbn. lia. Qed.

(** A pool built by [New] with a cap that is not negative starts within the
    cap, and stays within it. *)
Lemma New_within_cap {T : Type} `{Countable T} {Err Ctx : Type}
    (zero : T) (env : Env) (creator : nat → Ctx → T * option Err)
    (maxIdleSize : Z) (maxIdleTime : Duration) (w : World Ctx) (ops : list Op) :
  0 ≤ maxIdleSize →
  within_cap
    (pool (run zero env ops {| pool := New creator maxIdleSize maxIdleTime; world := w |})).
Proof.
  intros Hsize. apply run_within_cap. unfold within_cap. cbn.
  rewrite map_size_empty. lia.
Qed.

(** ** The claims about pools built by [New] *)

(** C1.  Whatever the factory returns and whatever calls are made on a pool
    built by [New], no resource is at the same time in the in-use map and in
    the idle map. *)
Theorem C1_mutual_exclusivity {T : Type} `{Countable T} {Err Ctx : Type}
    (zero : T) (env : Env) (creator : nat → Ctx → T * option Err)
    (maxIdleSize : Z) (maxIdleTime : Duration) (w : World Ctx)
    (ops : list Op) (r : T) :
  let s := run zero env ops {| pool := New creator maxIdleSize maxIdleTime; world := w |} in
  ¬ (is_Some (lock (pool s) !! r) ∧ is_Some (unlock (pool s) !! r)).
Proof.
  apply (run_exclusive zero env ops). intros k [_ [t Hk]]. cbn in Hk.
  by rewrite lookup_empty in Hk.
Qed.

(** C2.  On a pool built by [New], a [Release] that follows an [Acquire]
    calls [Lock] twice and no [Unlock]: the second [Lock], made by [NumIdle]
    while [Release] holds the mutex, never returns.  The factory is not
    invoked. *)
Theorem C2_release_relocks :
  ∃ s1 s2,
    Acquire 0%nat Test.env () Scenario.start = Returned (1%nat, None) s1 ∧
    mutex (pool s1) = false ∧
    Release Test.env 1%nat s1 = Blocked s2 ∧
    trace (world s2) = trace (world s1) ++ [EvLock; EvLock] ∧
    mutex (pool s2) = true ∧
    calls (world s2) = calls (world s1) ∧
    lock (pool s2) = ∅ ∧ unlock (pool s2) = ∅.
Proof. do 2 eexists. split_and!; reflexivity. Qed.

(** C10.  On a pool built by [New], the release of a resource whose checkout
    timestamp is exactly [now - maxIdleTime] is not taken for expired, and
    for that reason reaches [NumIdle] and blocks there: the resource is not
    put back into the idle map although there is room. *)
Theorem C10_boundary_release_blocks :
  ∃ s1 ts s2,
    Acquire 0%nat Scenario.env_boundary () Scenario.start = Returned (1%nat, None) s1 ∧
    lock (pool s1) !! 1%nat = Some ts ∧
    ts = next_now Scenario.env_boundary s1 - maxIdleTime (pool s1) ∧
    Z.of_nat (size (unlock (pool s1))) < maxIdleSize (pool s1) ∧
    Release Scenario.env_boundary 1%nat s1 = Blocked s2 ∧
    lock (pool s2) !! 1%nat = None ∧
    unlock (pool s2) !! 1%nat = None.
Proof. do 3 eexists. split_and!; reflexivity. Qed.

(** With one expired idle entry and a creator that fails, [Acquire] calls
    the creator, and the idle map is not the one the call started with: the
    sweep has removed the entry. *)
Lemma C4_counterexample :
  let s := Scenario.expired_idle_failing in
  let s' := final (Acquire 0%nat Test.env () s) in
  calls (world s') ≠ calls (world s) ∧
  (creator (pool s) (calls (world s)) ()).2 = Some "error response"%string ∧
  unlock (pool s) !! 2%nat = Some 0 ∧
  unlock (pool s') !! 2%nat = None ∧
  unlock (pool s') ≠ unlock (pool s).
Proof.
  split_and!; try reflexivity.
  - vm_compute. discriminate.
  - intros Heq. apply (f_equal (λ m : gmap nat Z, m !! 2%nat)) in Heq.
    vm_compute in Heq. discriminate.
Qed.

(** With one expired and one fresh idle entry, [Acquire] returns the fresh
    one, and the expired one has left the idle map as well. *)
Lemma C5_counterexample :
  let s := Scenario.mixed_idle in
  (∃ k ts, unlock (pool s) !! k = Some ts ∧ ¬ expired_at Test.env s ts) ∧
  ∃ s', Acquire 0%nat Test.env () s = Returned (2%nat, None) s' ∧
        unlock (pool s) !! 1%nat = Some 0 ∧
        unlock (pool s') !! 1%nat = None ∧
        unlock (pool s') ≠ delete 2%nat (unlock (pool s)).
Proof.
  split.
  - exists 2%nat, (100 * Test.second). split; [reflexivity|]. vm_compute. discriminate.
  - eexists. split_and!; try reflexivity.
    intros Heq. apply (f_equal (λ m : gmap nat Z, m !! 1%nat)) in Heq.
    vm_compute in Heq. discriminate.
Qed.

(** ** The single-call theorems at concrete inputs *)

(** The capacity discard of the tests: resource 2, three idle entries. *)
Lemma C3_idle_cap_witness :
  let s := Scenario.full_idle in
  let s' := final (Release Test.env 2%nat s) in
  Z.of_nat (size (unlock (pool s))) ≤ maxIdleSize (pool s) ∧
  Z.of_nat (size (unlock (pool s'))) ≤ maxIdleSize (pool s') ∧
  lock (pool s') = delete 2%nat (lock (pool s)) ∧
  unlock (pool s') = unlock (pool s).
Proof.
  assert (Z.of_nat (size (unlock (pool Scenario.full_idle)))
          ≤ maxIdleSize (pool Scenario.full_idle)) as Hcap
    by (vm_compute; discriminate).
  destruct (C3_idle_cap Test.env 2%nat Scenario.full_idle Hcap) as [Hsize Hfull].
  split_and!; [exact Hcap | exact Hsize | |];
    apply (Hfull (100 * Test.second));
    first [reflexivity | by eexists | vm_compute; discriminate].
Defined.

(** A failing creator behind one expired idle entry. *)
Lemma C4_factory_failure_witness :
  let s := Scenario.expired_idle_failing in
  lock_free (mutex (pool s)) ∧
  calls (world (final (Acquire 0%nat Test.env () s))) ≠ calls (world s) ∧
  (creator (pool s) (calls (world s)) ()).2 = Some "error response"%string ∧
  ∃ s', Acquire 0%nat Test.env () s = Returned (0%nat, Some "error response"%string) s' ∧
        lock (pool s') = lock (pool s) ∧
        unlock (pool s') = swept (valid_at Test.env s) (unlock (pool s)) ∧
        unlock (pool s') = ∅ ∧
        (∀ k ts, unlock (pool s) !! k = Some ts → expired_at Test.env s ts) ∧
        calls (world s') = S (calls (world s)).
Proof.
  assert (lock_free (mutex (pool Scenario.expired_idle_failing))) as Hfree
    by (exists true, false; split; reflexivity).
  assert (calls (world (final (Acquire 0%nat Test.env () Scenario.expired_idle_failing)))
          ≠ calls (world Scenario.expired_idle_failing)) as Hcalled
    by (vm_compute; discriminate).
  split_and!; [exact Hfree | exact Hcalled | reflexivity |].
  exact (C4_factory_failure 0%nat Test.env () Scenario.expired_idle_failing
           "error response"%string Hfree Hcalled eq_refl).
Defined.

(** Reuse with an expired entry next to the fresh one. *)
Lemma C5_reuse_witness :
  let s := Scenario.mixed_idle in
  lock_free (mutex (pool s)) ∧
  (∃ k ts, unlock (pool s) !! k = Some ts ∧ ¬ expired_at Test.env s ts) ∧
  ∃ r ts s',
    Acquire 0%nat Test.env () s = Returned (r, None) s' ∧
    unlock (pool s) !! r = Some ts ∧ ¬ expired_at Test.env s ts ∧
    calls (world s') = calls (world s) ∧
    trace (world s') = trace (world s) ++ [EvLock; EvUnlock] ∧
    (∀ k t, unlock (pool s') !! k = Some t ↔
            k ≠ r ∧ unlock (pool s) !! k = Some t ∧ ¬ expired_at Test.env s t) ∧
    lock (pool s') = <[r := now (world s')]> (lock (pool s)) ∧
    lock (pool s') !! r = Some (now (world s')) ∧
    next_now Test.env s ≤ now (world s').
Proof.
  assert (lock_free (mutex (pool Scenario.mixed_idle))) as Hfree
    by (exists true, false; split; reflexivity).
  assert (∃ k ts, unlock (pool Scenario.mixed_idle) !! k = Some ts ∧
                  ¬ expired_at Test.env Scenario.mixed_idle ts) as Hidle.
  { exists 2%nat, (100 * Test.second). split; [reflexivity|]. vm_compute. discriminate. }
  split_and!; [exact Hfree | exact Hidle |].
  exact (C5_reuse 0%nat Test.env () Scenario.mixed_idle Hfree Hidle).
Defined.

(** The only idle entry of [Scenario.expired_idle] is expired. *)
Lemma expired_idle_all_expired (k : nat) (ts : Z) :
  unlock (pool Scenario.expired_idle) !! k = Some ts →
  expired_at Test.env Scenario.expired_idle ts.
Proof.
  intros Hk. change (<[2%nat := 0]> (∅ : gmap nat Z) !! k = Some ts) in Hk.
  apply lookup_insert_Some in Hk as [[_ <-]|[_ Hk]].
  - vm_compute. reflexivity.
  - by rewrite lookup_empty in Hk.
Defined.

(** The fourth scenario of the specification: the idle entry is swept and
    the creator makes resource 1. *)
Lemma C6_fallback_witness :
  let s := Scenario.expired_idle in
  lock_free (mutex (pool s)) ∧
  (∀ k ts, unlock (pool s) !! k = Some ts → expired_at Test.env s ts) ∧
  ∃ x s',
    Acquire 0%nat Test.env () s = Returned x s' ∧
    calls (world s') = S (calls (world s)) ∧
    trace (world s') = trace (world s) ++ [EvLock; EvCreator (); EvUnlock] ∧
    x = (1%nat, None) ∧
    lock (pool s') = <[1%nat := now (world s')]> (lock (pool s)) ∧
    lock (pool s') !! 1%nat = Some (now (world s')) ∧
    next_now Test.env s ≤ now (world s').
Proof.
  assert (lock_free (mutex (pool Scenario.expired_idle))) as Hfree
    by (exists true, false; split; reflexivity).
  split_and!; [exact Hfree | exact expired_idle_all_expired |].
  exact (C6_fallback 0%nat Test.env () Scenario.expired_idle Hfree
           expired_idle_all_expired).
Defined.

(** The sweep at an idle map with an expired and a fresh entry. *)
Lemma C7_sweep_witness :
  let s := Scenario.mixed_idle in
  lock_free (mutex (pool s)) ∧
  min_int64 < maxIdleTime (pool s) ≤ max_int64 ∧
  let threshold := next_now Test.env s - maxIdleTime (pool s) in
  ∃ x s',
    Acquire 0%nat Test.env () s = Returned x s' ∧
    (∀ k ts, unlock (pool s) !! k = Some ts → ts < threshold →
             unlock (pool s') !! k = None) ∧
    (calls (world s') = calls (world s) →
     (∃ ts, unlock (pool s) !! x.1 = Some ts ∧ ¬ ts < threshold) ∧
     ∀ k ts, unlock (pool s) !! k = Some ts → ts < threshold →
             x.1 ≠ k ∧ lock (pool s') !! k = lock (pool s) !! k) ∧
    (calls (world s') ≠ calls (world s) →
     calls (world s') = S (calls (world s)) ∧
     ∀ k ts, unlock (pool s) !! k = Some ts → ts < threshold).
Proof.
  assert (lock_free (mutex (pool Scenario.mixed_idle))) as Hfree
    by (exists true, false; split; reflexivity).
  assert (min_int64 < maxIdleTime (pool Scenario.mixed_idle) ≤ max_int64) as Hd
    by (vm_compute; split; [reflexivity | discriminate]).
  split_and!; [exact Hfree | apply Hd | apply Hd |].
  exact (C7_sweep 0%nat Test.env () Scenario.mixed_idle Hfree Hd).
Defined.

(** Releasing resource 2 while only resource 1 is in use. *)
Lemma C8_release_unknown_witness :
  let s := Scenario.one_used in
  lock (pool s) !! 2%nat = None ∧
  lock (pool (final (Release Test.env 2%nat s))) = lock (pool s) ∧
  unlock (pool (final (Release Test.env 2%nat s))) = unlock (pool s) ∧
  ∃ s', Release Test.env 2%nat s = Returned () s' ∧
        trace (world s') =
          trace (world s) ++ [EvLock; EvPrintln msg_not_acquired; EvUnlock].
Proof.
  destruct (C8_release_unknown Test.env 2%nat Scenario.one_used eq_refl)
    as (Hlock & Hunlock & Hret).
  split_and!; [reflexivity | exact Hlock | exact Hunlock |].
  apply Hret. exists true, false. split; reflexivity.
Defined.

(** Releasing resource 1, held for a hundred seconds. *)
Lemma C9_release_found_witness :
  let s := Scenario.one_used in
  lock (pool s) !! 1%nat = Some 0 ∧
  lock_free (mutex (pool s)) ∧
  0 < next_now Test.env s - maxIdleTime (pool s) ∧
  lock (pool (final (Release Test.env 1%nat s))) = delete 1%nat (lock (pool s)) ∧
  ∃ s', Release Test.env 1%nat s = Returned () s' ∧
        lock (pool s') = delete 1%nat (lock (pool s)) ∧
        unlock (pool s') = unlock (pool s).
Proof.
  assert (lock_free (mutex (pool Scenario.one_used))) as Hfree
    by (exists true, false; split; reflexivity).
  destruct (C9_release_found Test.env 1%nat 0 Scenario.one_used eq_refl Hfree)
    as [Hgone Hstale].
  split_and!; [reflexivity | exact Hfree | reflexivity | exact Hgone |].
  apply Hstale; [vm_compute; split; [reflexivity | discriminate] | reflexivity].
Defined.

(** * Further properties of the methods *)

Ltac pool_unfold :=
  unfold Acquire, Acquire_locked, Release, Release_locked, NumIdle,
    getValidTimestamp, mutex_Lock, mutex_Unlock, time_Now, get_pool, put_lock,
    put_unlock, Println, call_creator, mbind, Go_bind, mret, Go_ret.

Section Methods.
Context {T : Type} `{Countable T} {Err Ctx M : Type} `{PoolMutex M}.
Variable zero : T.
Variable env : Env.

Implicit Types (s : @Machine T _ _ Err Ctx M) (r : T).

(** X1.  On a free mutex [NumIdle] returns the number of entries of the idle
    map, a number that is not negative; it locks once, unlocks once, changes
    neither map, reads no clock and calls no creator.  When [Lock] is not
    granted it never returns, and the pool is as it was. *)
Theorem X1_NumIdle s :
  (lock_free (mutex (pool s)) →
   ∃ s', NumIdle s = Returned (Z.of_nat (size (unlock (pool s)))) s' ∧
         0 ≤ Z.of_nat (size (unlock (pool s))) ∧
         lock (pool s') = lock (pool s) ∧ unlock (pool s') = unlock (pool s) ∧
         trace (world s') = trace (world s) ++ [EvLock; EvUnlock] ∧
         now (world s') = now (world s) ∧ calls (world s') = calls (world s)) ∧
  (Lock (mutex (pool s)) = None →
   ∃ s', NumIdle s = Blocked s' ∧ pool s' = pool s ∧
         trace (world s') = trace (world s) ++ [EvLock]).
Proof.
  split.
  - intros (mu1 & mu2 & Hlock & Hunlock).
    pool_unfold. cbn [log pool world]. rewrite Hlock. cbn. rewrite Hunlock.
    eexists. split; [reflexivity|]. cbn. split_and!; try done; [lia|].
    by rewrite <- !app_assoc.
  - intros Hlock. pool_unfold. cbn [log pool world]. rewrite Hlock.
    eexists. split; [reflexivity|]. done.
Qed.

(** X2.  [deleteInvalidIdleResources] always returns, and whatever order the
    [range] takes, the idle map it leaves holds exactly the entries whose
    timestamp is not before the threshold, with their timestamps; the in-use
    map is not touched. *)
Theorem X2_sweep_any_order s :
  ∃ s', deleteInvalidIdleResources env s = Returned () s' ∧
        lock (pool s') = lock (pool s) ∧
        mutex (pool s') = mutex (pool s) ∧
        (∀ k ts, unlock (pool s') !! k = Some ts ↔
                 unlock (pool s) !! k = Some ts ∧ valid_at env s ≤ ts) ∧
        (size (unlock (pool s')) ≤ size (unlock (pool s)))%nat.
Proof.
  rewrite deleteInvalidIdleResources_eq. eexists. split; [reflexivity|].
  cbn. split_and!; try done.
  - intros k ts. unfold swept. rewrite map_lookup_filter_Some. cbn.
    split; intros [? ?]; (split; [done|lia]).
  - apply map_size_filter.
Qed.

(** X3.  [getIdleResource] does not look at timestamps.  On an empty idle map
    it returns the zero value and [false], reads no clock and changes neither
    map.  On an idle map that is not empty it returns one of its keys and
    [true], deletes that key from the idle map, which gets one entry smaller,
    and stamps it into the in-use map with the clock reading it takes. *)
Theorem X3_getIdleResource s :
  ∃ x ok s',
    getIdleResource zero env s = Returned (x, ok) s' ∧
    (unlock (pool s) = ∅ →
     ok = false ∧ x = zero ∧ pool s' = pool s ∧ now (world s') = now (world s)) ∧
    (unlock (pool s) ≠ ∅ →
     ok = true ∧ is_Some (unlock (pool s) !! x) ∧
     unlock (pool s') = delete x (unlock (pool s)) ∧
     S (size (unlock (pool s'))) = size (unlock (pool s)) ∧
     lock (pool s') = <[x := now (world s')]> (lock (pool s)) ∧
     now (world s') = next_now env s).
Proof.
  rewrite getIdleResource_eq.
  destruct (first_idle env s) as [[r ts]|] eqn:Hfirst.
  - pose proof (first_idle_Some env s r ts Hfirst) as Hr.
    do 3 eexists. split; [reflexivity|]. split.
    + intros Hempty. by rewrite Hempty, lookup_empty in Hr.
    + intros _. cbn. split_and!; try done.
      rewrite map_size_delete, Hr.
      assert (size (unlock (pool s)) ≠ 0%nat); [|cbn; lia].
      intros Hz. apply map_size_empty_inv in Hz. by rewrite Hz, lookup_empty in Hr.
  - pose proof (first_idle_None env s Hfirst) as Hempty.
    do 3 eexists. split; [reflexivity|]. split; [|done].
    intros _. cbn. split_and!; done.
Qed.

(** X4.  The selection of [Acquire] is arbitrary: every idle entry that is
    not expired is the resource [Acquire] returns under some order of the
    [range], with the same clock. *)
Theorem X4_any_idle_entry_can_be_selected ctx s k ts :
  lock_free (mutex (pool s)) →
  unlock (pool s) !! k = Some ts →
  ¬ expired_at env s ts →
  ∃ code s',
    Acquire zero (env_with_order env code) ctx s = Returned (k, None) s' ∧
    calls (world s') = calls (world s) ∧
    lock (pool s') !! k = Some (now (world s')) ∧
    unlock (pool s') !! k = None.
Proof.
  intros Hfree Hk Hfresh.
  assert ((k, ts) ∈ map_to_list (swept (valid_at env s) (unlock (pool s)))) as Hin.
  { apply elem_of_map_to_list, map_lookup_filter_Some. done. }
  apply list_elem_of_lookup in Hin as [code Hcode].
  pose proof (range_order_any_first _ _ _ Hcode) as Hhead.
  destruct (Acquire_spec zero (env_with_order env code) ctx s Hfree)
    as (x & s' & Heq & _ & _ & _ & _ & Hcase).
  assert (selected (env_with_order env code) s = Some (k, ts)) as Hsel by exact Hhead.
  rewrite Hsel in Hcase. destruct Hcase as (-> & El & Eu & Hcalls & _).
  exists code, s'. split_and!; try done.
  - rewrite El. apply lookup_insert_eq.
  - rewrite Eu. apply lookup_delete_eq.
Qed.

End Methods.

Ltac clock := repeat (progress (unfold next_now; cbn)).

Section Effects.
Context {T : Type} `{Countable T} {Err Ctx M : Type} `{PoolMutex M}.
Variable zero : T.
Variable env : Env.

Implicit Types (s : @Machine T _ _ Err Ctx M) (r : T).

(** What a call of [Acquire] does to the clock, the creator and the
    timestamps, whatever its outcome. *)
Lemma Acquire_effects ctx s :
  let s' := final (Acquire zero env ctx s) in
  now (world s) ≤ now (world s') ∧
  (calls (world s) ≤ calls (world s') ≤ S (calls (world s)))%nat ∧
  (∀ k ts, lock (pool s') !! k = Some ts →
           lock (pool s) !! k = Some ts ∨ ts = now (world s')) ∧
  (∀ k, is_Some (lock (pool s) !! k) → is_Some (lock (pool s') !! k)) ∧
  (∀ k ts, unlock (pool s') !! k = Some ts → unlock (pool s) !! k = Some ts).
Proof.
  pool_unfold. cbn [log pool world].
  destruct (Lock (mutex (pool s))) as [mu1|]; [|cbn; split_and!; auto; lia].
  rewrite deleteInvalidIdleResources_eq, getIdleResource_eq.
  unfold first_idle.
  cbn [set_unlock set_mutex set_lock log ranged tick pool world unlock ranges].
  change (valid_at env _) with (valid_at env s).
  assert (∀ r k ts, delete r (swept (valid_at env s) (unlock (pool s))) !! k = Some ts →
                    unlock (pool s) !! k = Some ts) as Hdel.
  { intros r k ts [_ Hk]%lookup_delete_Some. by apply swept_lookup_Some in Hk. }
  assert (∀ r (t : Z) k, is_Some (lock (pool s) !! k) →
                         is_Some (<[r := t]> (lock (pool s)) !! k)) as Hins.
  { intros r t k Hk. rewrite lookup_insert. by case_decide. }
  assert (∀ r (t : Z) k ts, <[r := t]> (lock (pool s)) !! k = Some ts →
                            lock (pool s) !! k = Some ts ∨ ts = t) as Hins'.
  { intros r t k ts [[_ <-]|[_ Hk]]%lookup_insert_Some; auto. }
  destruct (head _) as [[r ts]|].
  - cbn. destruct (Unlock mu1); cbn; clock.
    all: split_and!; try lia;
      first [by apply Hins' | by apply Hins | by apply Hdel].
  - cbn. destruct (creator (pool s) (calls (world s)) ctx) as [res [err|]]; cbn;
      destruct (Unlock mu1); cbn; clock;
      split_and!; try lia;
      first [by apply Hins' | by apply Hins | by auto
            | intros k ts Hk; by apply swept_lookup_Some in Hk].
Qed.

(** What a call of [Release] does to the clock and the timestamps, whatever
    its outcome. *)
Lemma Release_effects r s :
  let s' := final (Release env r s) in
  now (world s) ≤ now (world s') ∧
  (∀ k ts, lock (pool s') !! k = Some ts → lock (pool s) !! k = Some ts) ∧
  (∀ k ts, unlock (pool s') !! k = Some ts →
           unlock (pool s) !! k = Some ts ∨ (k = r ∧ ts = now (world s'))).
Proof.
  pool_unfold. cbn [log pool world].
  destruct (Lock (mutex (pool s))) as [mu1|]; [|cbn; split_and!; auto; lia].
  cbn [set_mutex pool lock].
  assert (∀ k ts, delete r (lock (pool s)) !! k = Some ts →
                  lock (pool s) !! k = Some ts) as Hdel.
  { by intros k ts [_ Hk]%lookup_delete_Some. }
  destruct (lock (pool s) !! r) as [ts|] eqn:Hr; cbn; rewrite ?Hr; cbn.
  2:{ destruct (Unlock mu1); cbn; split_and!; auto; lia. }
  destruct (Time_Before ts _); cbn.
  { destruct (Unlock mu1); cbn; clock; split_and!; auto; lia. }
  destruct (Lock mu1) as [mu2|]; cbn; [|clock; split_and!; auto; lia].
  destruct (Unlock mu2) as [mu3|]; cbn; [|clock; split_and!; auto; lia].
  case_bool_decide; cbn.
  - destruct (Unlock mu3); cbn; clock; split_and!; auto; lia.
  - destruct (Unlock mu3); cbn; clock;
      split_and!; try lia; try done;
      intros k t [[<- <-]|[_ Hk]]%lookup_insert_Some; auto.
Qed.

Lemma NumIdle_effects s :
  world (final (NumIdle s)) =
    {| now := now (world s); reads := reads (world s); ranges := ranges (world s);
       calls := calls (world s); trace := trace (world (final (NumIdle s))) |}.
Proof.
  pool_unfold. cbn [log pool world].
  destruct (Lock (mutex (pool s))) as [mu1|]; cbn; [|done].
  destruct (Unlock mu1); cbn; done.
Qed.

End Effects.

Section Calls.
Context {T : Type} `{Countable T} {Err Ctx M : Type} `{PoolMutex M}.
Variable zero : T.
Variable env : Env.

Implicit Types (s : @Machine T _ _ Err Ctx M) (r : T).

(** X5.  With a mutex that grants the nested [Lock] of [NumIdle], [Release]
    of a resource that is in use and not expired returns.  If the idle map
    holds fewer than [maxIdleSize] entries the resource moves to the idle
    map, stamped with the clock reading taken at that moment; otherwise it is
    dropped, and the message printed is the one of the expiry branch. *)
Theorem X5_release_fresh r ts s :
  lock (pool s) !! r = Some ts →
  ¬ expired_at env s ts →
  lock_free_nested (mutex (pool s)) →
  ∃ s', Release env r s = Returned () s' ∧
        lock (pool s') = delete r (lock (pool s)) ∧
        calls (world s') = calls (world s) ∧
        if bool_decide (Z.of_nat (size (unlock (pool s))) < maxIdleSize (pool s))
        then unlock (pool s') = <[r := now (world s')]> (unlock (pool s)) ∧
             trace (world s') =
               trace (world s) ++ [EvLock; EvLock; EvUnlock; EvUnlock]
        else unlock (pool s') = unlock (pool s) ∧
             trace (world s') =
               trace (world s) ++
                 [EvLock; EvLock; EvUnlock; EvPrintln msg_expired; EvUnlock].
Proof.
  intros Hr Hfresh (mu1 & mu2 & mu3 & mu4 & Hl1 & Hl2 & Hu2 & Hu3).
  pose proof (Release_fresh env r ts s mu1 Hr Hfresh Hl1) as Hrel.
  cbn zeta in Hrel. rewrite Hl2, Hu2, Hu3 in Hrel.
  eexists. split; [exact Hrel|].
  case_bool_decide as Hroom.
  - rewrite bool_decide_eq_false_2 by lia. cbn. split_and!; try done.
    by rewrite <- !app_assoc.
  - rewrite bool_decide_eq_true_2 by lia. cbn. split_and!; try done.
    by rewrite <- !app_assoc.
Qed.

(** X6.  [Release] of a resource touches no other resource: the entries of
    every other key, in both maps, are the ones before the call, whatever
    the outcome of the call. *)
Theorem X6_release_frame r k s :
  k ≠ r →
  lock (pool (final (Release env r s))) !! k = lock (pool s) !! k ∧
  unlock (pool (final (Release env r s))) !! k = unlock (pool s) !! k.
Proof.
  intros Hne.
  destruct (Release_maps env r s) as (_ & _ & _ & _ & Hmaps).
  destruct Hmaps as [[-> ->]|(_ & -> & [->|(t & -> & _)])]; [done|..].
  - by rewrite lookup_delete_ne.
  - by rewrite lookup_delete_ne, lookup_insert_ne.
Qed.

(** X7.  A second [Release] of the same resource, right after the first,
    changes neither map, whatever the outcome of the first: either the first
    found the mutex held, and so does the second, or the resource has left
    the in-use map and the second takes it for not acquired. *)
Theorem X7_double_release r s :
  let s1 := final (Release env r s) in
  let s2 := final (Release env r s1) in
  lock (pool s2) = lock (pool s1) ∧ unlock (pool s2) = unlock (pool s1).
Proof.
  intros s1 s2. subst s1 s2.
  destruct (Lock (mutex (pool s))) as [mu1|] eqn:Hlock.
  - assert (lock (pool (final (Release env r s))) !! r = None) as Hgone.
    { destruct (lock (pool s) !! r) as [ts|] eqn:Hr.
      - rewrite (Release_found_lock env r ts s Hr) by eauto.
        apply lookup_delete_eq.
      - destruct (Release_maps env r s) as (_ & _ & _ & _ & Hmaps).
        destruct Hmaps as [[-> _]|([? Hin] & _)]; [done|].
        by rewrite Hr in Hin. }
    destruct (Release_maps env r (final (Release env r s)))
      as (_ & _ & _ & _ & Hmaps).
    destruct Hmaps as [?|([? Hin] & _)]; [done|]. by rewrite Hgone in Hin.
  - assert (Release env r s = Blocked (log EvLock s)) as ->.
    { pool_unfold. cbn [log pool world]. by rewrite Hlock. }
    cbn [final].
    assert (Release env r (log EvLock s) = Blocked (log EvLock (log EvLock s))) as ->.
    { pool_unfold. cbn [log pool world]. by rewrite Hlock. }
    done.
Qed.

(** X8.  With a cap that is zero or negative [Release] never puts a resource
    into the idle map: the idle map after the call is the one before. *)
Theorem X8_release_without_room r s :
  maxIdleSize (pool s) ≤ 0 →
  unlock (pool (final (Release env r s))) = unlock (pool s).
Proof.
  intros Hcap.
  destruct (Release_maps env r s) as (_ & _ & _ & _ & Hmaps).
  destruct Hmaps as [[_ ->]|(_ & _ & [->|(t & _ & Hlt)])]; [done..|lia].
Qed.

Lemma exec_effects op s :
  let s' := final (exec zero env op s) in
  now (world s) ≤ now (world s') ∧
  (calls (world s) ≤ calls (world s') ≤
     calls (world s) + count_Acquire [op])%nat ∧
  (stamped_in_past s → stamped_in_past s').
Proof.
  destruct op as [ctx|r|]; cbn [exec]; rewrite ?final_then_ret.
  - destruct (Acquire_effects zero env ctx s) as (Hnow & Hcalls & Hl & _ & Hu).
    cbn [count_Acquire]. split_and!; try lia.
    intros Hpast k ts [Hk|Hk].
    + destruct (Hl k ts Hk) as [Hold| ->]; [|lia].
      specialize (Hpast k ts (or_introl Hold)). lia.
    + specialize (Hpast k ts (or_intror (Hu k ts Hk))). lia.
  - destruct (Release_effects env r s) as (Hnow & Hl & Hu).
    destruct (Release_maps env r s) as (_ & _ & _ & Hcalls & _).
    cbn [count_Acquire]. split_and!; try lia.
    intros Hpast k ts [Hk|Hk].
    + specialize (Hpast k ts (or_introl (Hl k ts Hk))). lia.
    + destruct (Hu k ts Hk) as [Hold|[_ ->]]; [|lia].
      specialize (Hpast k ts (or_intror Hold)). lia.
  - unfold stamped_in_past. rewrite NumIdle_maps, NumIdle_effects. cbn.
    split_and!; try lia. done.
Qed.

(** X9.  Along every sequence of calls the creator is called at most once
    for each [Acquire] of the sequence, and by nothing else; the count of its
    calls never goes down. *)
Theorem X9_creator_calls ops s :
  (calls (world s) ≤ calls (world (run zero env ops s))
     ≤ calls (world s) + count_Acquire ops)%nat.
Proof.
  revert s. induction ops as [|op ops IH]; intros s; [cbn; lia|].
  destruct (exec_effects op s) as (_ & Hcalls & _).
  assert (count_Acquire [op] + count_Acquire ops = count_Acquire (op :: ops))%nat
    as Hcount by (by destruct op).
  destruct (run_step zero env op ops s) as [-> | ->]; [|lia].
  specialize (IH (final (exec zero env op s))). lia.
Qed.

(** X10.  If no timestamp kept by the pool is later than the clock, this
    stays so along every sequence of calls, and the clock never goes back:
    a resource in use or idle is never stamped with a time to come. *)
Theorem X10_timestamps_in_past ops s :
  stamped_in_past s →
  stamped_in_past (run zero env ops s) ∧
  now (world s) ≤ now (world (run zero env ops s)).
Proof.
  revert s. induction ops as [|op ops IH]; intros s Hpast; [by split|].
  destruct (exec_effects op s) as (Hnow & _ & Hkeep).
  destruct (run_step zero env op ops s) as [-> | ->]; [|auto].
  destruct (IH (final (exec zero env op s)) (Hkeep Hpast)) as [Hpast' Hnow'].
  split; [done|lia].
Qed.

(** X11.  For every implementation of the mutex and every pool whose idle map
    is within [maxIdleSize], also one written as a literal, the idle map is
    within [maxIdleSize] after every sequence of calls. *)
Theorem X11_cap_along_calls ops s :
  within_cap (pool s) → within_cap (pool (run zero env ops s)).
Proof.
  revert s. induction ops as [|op ops IH]; intros s Hcap; [done|].
  pose proof (exec_within_cap zero env op s Hcap) as Hstep.
  destruct (run_step zero env op ops s) as [-> | ->]; [|done].
  by apply IH.
Qed.

(** X12.  For every implementation of the mutex and every pool in which no
    resource is both in use and idle, also one written as a literal, no
    resource is both in use and idle after every sequence of calls. *)
Theorem X12_exclusive_along_calls ops s :
  exclusive (pool s) → exclusive (pool (run zero env ops s)).
Proof.
  revert s. induction ops as [|op ops IH]; intros s Hex; [done|].
  pose proof (exec_exclusive zero env op s Hex) as Hstep.
  destruct (run_step zero env op ops s) as [-> | ->]; [|done].
  by apply IH.
Qed.

(** X13.  [Acquire] never removes a resource from the in-use map, whatever
    its outcome; an entry it leaves in the idle map was there before the
    call, with the same timestamp. *)
Theorem X13_acquire_keeps_in_use ctx s k :
  let s' := final (Acquire zero env ctx s) in
  (is_Some (lock (pool s) !! k) → is_Some (lock (pool s') !! k)) ∧
  (∀ ts, unlock (pool s') !! k = Some ts → unlock (pool s) !! k = Some ts).
Proof.
  destruct (Acquire_effects zero env ctx s) as (_ & _ & _ & Hl & Hu).
  split; [apply Hl | intros ts; apply Hu].
Qed.

(** X19.  [getValidTimestamp] reads the clock once, leaves the pool as it is
    and returns [now - maxIdleTime], except for the one duration that has no
    negation in 64 bits: there [-1 * maxIdleTime] wraps around and the
    threshold is [now - 2^63], in the past and not in the future. *)
Theorem X19_getValidTimestamp s :
  min_int64 ≤ maxIdleTime (pool s) ≤ max_int64 →
  ∃ s', getValidTimestamp env s =
          Returned (if decide (maxIdleTime (pool s) = min_int64)
                    then next_now env s - 2 ^ 63
                    else next_now env s - maxIdleTime (pool s)) s' ∧
        pool s' = pool s ∧
        now (world s') = next_now env s ∧
        reads (world s') = S (reads (world s)).
Proof.
  intros Hd.
  assert (Time_Add (next_now env s) (Duration_mul (-1) (maxIdleTime (pool s))) =
          if decide (maxIdleTime (pool s) = min_int64)
          then next_now env s - 2 ^ 63
          else next_now env s - maxIdleTime (pool s)) as <-.
  { case_decide as Hmin.
    - rewrite Hmin. reflexivity.
    - apply valid_timestamp_sub. lia. }
  pool_unfold. eexists. split; [reflexivity|]. done.
Qed.

(** X20.  A negative [maxIdleTime] puts the threshold after the clock: a
    resource whose checkout timestamp is not later than the clock is expired
    the moment it is released, so [Release] drops it and prints the expiry
    message. *)
Theorem X20_negative_idle_time r ts s :
  lock (pool s) !! r = Some ts →
  ts ≤ now (world s) →
  min_int64 < maxIdleTime (pool s) < 0 →
  lock_free (mutex (pool s)) →
  ∃ s', Release env r s = Returned () s' ∧
        lock (pool s') = delete r (lock (pool s)) ∧
        unlock (pool s') = unlock (pool s) ∧
        trace (world s') =
          trace (world s) ++ [EvLock; EvPrintln msg_expired; EvUnlock].
Proof.
  intros Hr Hts Hd Hfree. apply (Release_expired env r ts s Hr); [|done].
  unfold expired_at. rewrite valid_at_sub by (unfold max_int64; lia).
  unfold next_now. lia.
Qed.

End Calls.

Section MockCalls.
Context {T : Type} `{Countable T} {Err Ctx : Type}.
Variable zero : T.
Variable env : Env.

Implicit Types (s : @Machine T _ _ Err Ctx MockMutex) (r : T).

(** X14.  With the mock mutex, a resource released into an empty idle map
    comes back from the next [Acquire] when that call reads the clock no more
    than [maxIdleTime] after the release stamped it: the creator is not
    called, the idle map is empty again, and the resource is in use with a
    new checkout timestamp. *)
Theorem X14_release_then_acquire ctx r ts s :
  lock (pool s) !! r = Some ts →
  ¬ expired_at env s ts →
  unlock (pool s) = ∅ →
  0 < maxIdleSize (pool s) →
  min_int64 < maxIdleTime (pool s) ≤ max_int64 →
  Z.of_N (elapse env (S (S (reads (world s))))) ≤ maxIdleTime (pool s) →
  ∃ s1 s2,
    Release env r s = Returned () s1 ∧
    unlock (pool s1) = {[r := now (world s1)]} ∧
    Acquire zero env ctx s1 = Returned (r, None) s2 ∧
    calls (world s2) = calls (world s) ∧
    unlock (pool s2) = ∅ ∧
    lock (pool s2) = <[r := now (world s2)]> (lock (pool s)).
Proof.
  intros Hr Hfresh Hempty Hsize Hd Hsoon.
  pose proof (Release_fresh env r ts s _ Hr Hfresh eq_refl) as Hrel.
  cbn in Hrel. rewrite Hempty, map_size_empty in Hrel.
  rewrite bool_decide_eq_false_2 in Hrel by lia.
  rewrite insert_empty in Hrel.
  match type of Hrel with _ = Returned () ?st => set (s1 := st) in * end.
  assert (unlock (pool s1) = {[r := now (world s1)]}) as Hu1 by done.
  assert (¬ expired_at env s1 (now (world s1))) as Hfresh1.
  { unfold expired_at. rewrite valid_at_sub by exact Hd.
    subst s1. clock. lia. }
  destruct (Acquire_spec zero env ctx s1 (MockMutex_free s1))
    as (x & s2 & Heq & _ & _ & _ & _ & Hcase).
  exists s1, s2. split; [exact Hrel|]. split; [exact Hu1|].
  destruct (selected env s1) as [[r' ts']|] eqn:Hsel.
  - destruct (selected_Some env s1 r' ts' Hsel) as [Hr' _].
    rewrite Hu1 in Hr'. apply lookup_singleton_Some in Hr' as [<- <-].
    destruct Hcase as (-> & El & Eu & Hcalls & _).
    split_and!; try done.
    + rewrite Eu. apply map_eq. intros k. rewrite lookup_empty.
      apply lookup_delete_None.
      destruct (decide (r = k)) as [|Hne]; [by left|right].
      apply map_lookup_filter_None. left. rewrite Hu1.
      by apply lookup_singleton_ne.
    + rewrite El. subst s1. cbn. apply insert_delete_eq.
  - pose proof (selected_None env s1 Hsel) as Hswept.
    assert (swept (valid_at env s1) (unlock (pool s1)) !! r = Some (now (world s1)))
      as Hin.
    { apply map_lookup_filter_Some. split; [|exact Hfresh1].
      rewrite Hu1. apply lookup_singleton_eq. }
    by rewrite Hswept, lookup_empty in Hin.
Qed.

(** X15.  With the mock mutex every call returns, and the mock has recorded
    as many [Unlock]s as [Lock]s, in the order of a call with or without
    the nested [NumIdle]: this is what [AssertExpectations] checks in the
    tests. *)
Theorem X15_mock_calls_return (op : Op) s :
  ∃ s', exec zero env op s = Returned () s' ∧
        (mutex (pool s') = mutex (pool s) ++ [CalledLock; CalledUnlock] ∨
         mutex (pool s') =
           mutex (pool s) ++ [CalledLock; CalledLock; CalledUnlock; CalledUnlock]).
Proof.
  destruct op as [ctx|r|]; cbn [exec].
  - pool_unfold. cbn [log pool world Lock MockMutex_PoolMutex].
    rewrite deleteInvalidIdleResources_eq, getIdleResource_eq.
    destruct (first_idle _ _) as [[r ts]|]; cbn.
    + eexists. split; [reflexivity|]. cbn. left. by rewrite <- app_assoc.
    + destruct (creator _ _ _) as [res [err|]]; cbn;
        (eexists; split; [reflexivity|]; cbn; left; by rewrite <- app_assoc).
  - pool_unfold. cbn [log pool world Lock MockMutex_PoolMutex].
    cbn [set_mutex pool lock].
    destruct (lock (pool s) !! r) as [ts|] eqn:Hr; cbn; rewrite ?Hr; cbn.
    2:{ eexists. split; [reflexivity|]. cbn. left. by rewrite <- app_assoc. }
    destruct (Time_Before ts _); cbn.
    { eexists. split; [reflexivity|]. cbn. left. by rewrite <- app_assoc. }
    case_bool_decide; cbn;
      (eexists; split; [reflexivity|]; cbn; right; by rewrite <- !app_assoc).
  - pool_unfold. cbn. eexists. split; [reflexivity|]. cbn. left.
    by rewrite <- app_assoc.
Qed.

End MockCalls.

Section SyncCalls.
Context {T : Type} `{Countable T} {Err Ctx : Type}.
Variable zero : T.
Variable env : Env.

Implicit Types (s : @Machine T _ _ Err Ctx sync_Mutex) (r : T).

(** X16.  On a free [sync.Mutex], [Release] of any resource that is in use
    and not expired never returns: the caller waits in the [Lock] of
    [NumIdle] for the mutex it holds itself.  The mutex stays held, and the
    resource is in neither map: the pool has lost it. *)
Theorem X16_release_deadlocks r ts s :
  lock (pool s) !! r = Some ts →
  ¬ expired_at env s ts →
  mutex (pool s) = false →
  unlock (pool s) !! r = None →
  ∃ s', Release env r s = Blocked s' ∧
        trace (world s') = trace (world s) ++ [EvLock; EvLock] ∧
        mutex (pool s') = true ∧
        lock (pool s') !! r = None ∧
        unlock (pool s') !! r = None.
Proof.
  intros Hr Hfresh Hmu Hidle.
  destruct (Release_sync_blocks env r ts s Hr Hfresh Hmu)
    as (s' & Heq & Htrace & Hheld & El & Eu).
  exists s'. split_and!; try done.
  - rewrite El. apply lookup_delete_eq.
  - by rewrite Eu.
Qed.

(** X17.  Once a caller is blocked while it holds the [sync.Mutex], the pool
    is frozen: every later call, whatever it is, waits in its first [Lock];
    the maps stay as they are, the clock is not read and the creator is not
    called. *)
Theorem X17_frozen_when_held (ops : list Op) s :
  mutex (pool s) = true →
  pool (run zero env ops s) = pool s ∧
  now (world (run zero env ops s)) = now (world s) ∧
  calls (world (run zero env ops s)) = calls (world s) ∧
  trace (world (run zero env ops s)) =
    trace (world s) ++ replicate (length ops) EvLock.
Proof.
  revert s. induction ops as [|op ops IH]; intros s Hmu.
  - cbn. by rewrite app_nil_r.
  - cbn [run]. rewrite (held_blocks_all zero env op s Hmu).
    destruct (IH (log EvLock s) Hmu) as (Hp & Hn & Hc & Ht).
    rewrite Hp, Hn, Hc, Ht. cbn. split_and!; try done.
    by rewrite <- app_assoc.
Qed.

Lemma Release_sync_unlock r s :
  unlock (pool (final (Release env r s))) = unlock (pool s).
Proof.
  destruct (mutex (pool s)) eqn:Hmu.
  - pose proof (held_blocks_all zero env (OpRelease r) s Hmu) as Hblocked.
    cbn [exec] in Hblocked. by rewrite Hblocked.
  - destruct (lock (pool s) !! r) as [ts|] eqn:Hr.
    + destruct (decide (ts < valid_at env s)) as [Hold|Hfresh].
      * destruct (Release_expired env r ts s Hr Hold (sync_Mutex_free s Hmu))
          as (s' & -> & _ & Eu & _). done.
      * destruct (Release_sync_blocks env r ts s Hr Hfresh Hmu)
          as (s' & -> & _ & _ & _ & Eu). done.
    + destruct (Release_maps env r s) as (_ & _ & _ & _ & Hmaps).
      destruct Hmaps as [[_ ?]|([? Hin] & _)]; [done|]. by rewrite Hr in Hin.
Qed.

Lemma run_sync_no_idle (ops : list Op) s :
  unlock (pool s) = ∅ → unlock (pool (run zero env ops s)) = ∅.
Proof.
  revert s. induction ops as [|op ops IH]; intros s Hempty; [done|].
  assert (unlock (pool (final (exec zero env op s))) = ∅) as Hstep.
  { destruct op as [ctx|r|]; cbn [exec]; rewrite ?final_then_ret.
    - destruct (Acquire_maps zero env ctx s) as (_ & _ & _ & Hmaps).
      destruct Hmaps as [[_ ->]|[(r & t & _ & ->)|[-> _]]]; [done| |done].
      rewrite Hempty. unfold swept. by rewrite map_filter_empty, delete_empty.
    - by rewrite Release_sync_unlock.
    - by rewrite NumIdle_maps. }
  destruct (run_step zero env op ops s) as [-> | ->]; auto.
Qed.

End SyncCalls.

(** X18.  On a pool built by [New] the idle map is empty after every
    sequence of calls: no [Release] ever gets a resource into it.  So no
    resource is ever reused: an [Acquire] that gets the mutex calls the
    creator. *)
Theorem X18_New_never_reuses {T : Type} `{Countable T} {Err Ctx : Type}
    (zero : T) (env : Env) (creator : nat → Ctx → T * option Err)
    (maxIdleSize : Z) (maxIdleTime : Duration) (w : World Ctx)
    (ops : list Op) (ctx : Ctx) :
  let s := run zero env ops {| pool := New creator maxIdleSize maxIdleTime; world := w |} in
  unlock (pool s) = ∅ ∧
  (mutex (pool s) = false →
   ∃ x s', Acquire zero env ctx s = Returned x s' ∧
           calls (world s') = S (calls (world s)) ∧
           unlock (pool s') = ∅).
Proof.
  intros s.
  assert (unlock (pool s) = ∅) as Hempty by (by apply run_sync_no_idle).
  split; [done|]. intros Hmu.
  destruct (Acquire_spec zero env ctx s (sync_Mutex_free s Hmu))
    as (x & s' & Heq & _ & _ & _ & _ & Hcase).
  assert (selected env s = None) as Hsel.
  { unfold selected, swept. by rewrite Hempty, map_filter_empty, map_to_list_empty. }
  rewrite Hsel in Hcase. destruct Hcase as (Eu & Hcalls & _).
  by exists x, s'.
Qed.

(** ** The further properties at concrete inputs *)

(** [NumIdle] on a free mutex with nothing idle, and on a held one. *)
Lemma X1_NumIdle_witness :
  (∃ s', NumIdle Scenario.one_used = Returned 0 s' ∧
         trace (world s') = [EvLock; EvUnlock]) ∧
  (∃ s', NumIdle Setup.held = Blocked s' ∧ pool s' = pool Setup.held).
Proof.
  destruct (X1_NumIdle Scenario.one_used) as [Hfree _].
  destruct (X1_NumIdle Setup.held) as [_ Hheld].
  split.
  - destruct Hfree as (s' & Heq & _ & _ & _ & Htrace & _).
    { exists true, false. split; reflexivity. }
    exists s'. split; [exact Heq | exact Htrace].
  - destruct (Hheld eq_refl) as (s' & Heq & Hpool & _).
    exists s'. split; [exact Heq | exact Hpool].
Defined.

(** Of three fresh idle entries, the second can be the one selected. *)
Lemma X4_any_idle_entry_can_be_selected_witness :
  let s := Setup.three_idle in
  lock_free (mutex (pool s)) ∧
  unlock (pool s) !! 6%nat = Some (100 * Test.second) ∧
  ¬ expired_at Test.env s (100 * Test.second) ∧
  ∃ code s',
    Acquire 0%nat (env_with_order Test.env code) () s = Returned (6%nat, None) s' ∧
    calls (world s') = calls (world s) ∧
    lock (pool s') !! 6%nat = Some (now (world s')) ∧
    unlock (pool s') !! 6%nat = None.
Proof.
  assert (lock_free (mutex (pool Setup.three_idle))) as Hfree
    by (exists true, false; split; reflexivity).
  assert (¬ expired_at Test.env Setup.three_idle (100 * Test.second)) as Hfresh
    by (vm_compute; discriminate).
  split_and!; [exact Hfree | reflexivity | exact Hfresh |].
  exact (X4_any_idle_entry_can_be_selected 0%nat Test.env () Setup.three_idle
           6%nat (100 * Test.second) Hfree eq_refl Hfresh).
Defined.

(** The happy path of the tests: resource 2 moves to the idle map. *)
Lemma X5_release_fresh_witness :
  let s := Setup.one_used_mock in
  lock (pool s) !! 2%nat = Some (100 * Test.second) ∧
  ¬ expired_at Test.env s (100 * Test.second) ∧
  lock_free_nested (mutex (pool s)) ∧
  ∃ s', Release Test.env 2%nat s = Returned () s' ∧
        lock (pool s') = delete 2%nat (lock (pool s)) ∧
        calls (world s') = calls (world s) ∧
        unlock (pool s') = <[2%nat := now (world s')]> (unlock (pool s)) ∧
        trace (world s') = trace (world s) ++ [EvLock; EvLock; EvUnlock; EvUnlock].
Proof.
  assert (¬ expired_at Test.env Setup.one_used_mock (100 * Test.second)) as Hfresh
    by (vm_compute; discriminate).
  assert (lock_free_nested (mutex (pool Setup.one_used_mock))) as Hnested
    by (do 4 eexists; split_and!; reflexivity).
  split_and!; [reflexivity | exact Hfresh | exact Hnested |].
  exact (X5_release_fresh Test.env 2%nat (100 * Test.second) Setup.one_used_mock
           eq_refl Hfresh Hnested).
Defined.

(** Releasing resource 2 leaves resource 1 in use and resource 5 idle. *)
Lemma X6_release_frame_witness :
  let s := Setup.busy_mock in
  1%nat ≠ 2%nat ∧ 5%nat ≠ 2%nat ∧
  lock (pool (final (Release Test.env 2%nat s))) !! 1%nat = Some (100 * Test.second) ∧
  unlock (pool (final (Release Test.env 2%nat s))) !! 5%nat = Some (100 * Test.second).
Proof.
  assert (1%nat ≠ 2%nat) as H12 by discriminate.
  assert (5%nat ≠ 2%nat) as H52 by discriminate.
  split_and!; [exact H12 | exact H52 | |].
  - exact (proj1 (X6_release_frame Test.env 2%nat 1%nat Setup.busy_mock H12)).
  - exact (proj2 (X6_release_frame Test.env 2%nat 5%nat Setup.busy_mock H52)).
Defined.

(** With a cap of zero the fresh resource 1 is dropped. *)
Lemma X8_release_without_room_witness :
  let s := Setup.zero_cap in
  maxIdleSize (pool s) ≤ 0 ∧
  lock (pool s) !! 1%nat = Some (100 * Test.second) ∧
  unlock (pool (final (Release Test.env 1%nat s))) = unlock (pool s).
Proof.
  assert (maxIdleSize (pool Setup.zero_cap) ≤ 0) as Hcap by (vm_compute; discriminate).
  split_and!; [exact Hcap | reflexivity |].
  exact (X8_release_without_room Test.env 1%nat Setup.zero_cap Hcap).
Defined.

Lemma start_stamped_in_past : stamped_in_past Scenario.start.
Proof. intros k ts [Hk|Hk]; cbn in Hk; by rewrite lookup_empty in Hk. Defined.

(** A pool built by [New], two [Acquire]s and a [Release]. *)
Lemma X10_timestamps_in_past_witness :
  let ops := [OpAcquire (); OpAcquire (); OpRelease 1%nat] in
  stamped_in_past Scenario.start ∧
  stamped_in_past (run 0%nat Test.env ops Scenario.start) ∧
  now (world Scenario.start) ≤ now (world (run 0%nat Test.env ops Scenario.start)).
Proof.
  split; [exact start_stamped_in_past|].
  exact (X10_timestamps_in_past 0%nat Test.env
           [OpAcquire (); OpAcquire (); OpRelease 1%nat] Scenario.start
           start_stamped_in_past).
Defined.

(** The full idle map of the tests, a [Release], an [Acquire], a [Release]. *)
Lemma X11_cap_along_calls_witness :
  let ops := [OpRelease 2%nat; OpAcquire (); OpRelease 5%nat; OpNumIdle] in
  within_cap (pool Scenario.full_idle) ∧
  within_cap (pool (run 0%nat Test.env ops Scenario.full_idle)).
Proof.
  assert (within_cap (pool Scenario.full_idle)) as Hcap by (vm_compute; discriminate).
  split; [exact Hcap|].
  exact (X11_cap_along_calls 0%nat Test.env
           [OpRelease 2%nat; OpAcquire (); OpRelease 5%nat; OpNumIdle]
           Scenario.full_idle Hcap).
Defined.

Lemma one_used_mock_exclusive : exclusive (pool Setup.one_used_mock).
Proof. intros r [_ [t Ht]]. cbn in Ht. by rewrite lookup_empty in Ht. Defined.

(** A pool literal with the mock mutex, a [Release] and two [Acquire]s. *)
Lemma X12_exclusive_along_calls_witness :
  let ops := [OpRelease 2%nat; OpAcquire (); OpAcquire ()] in
  exclusive (pool Setup.one_used_mock) ∧
  exclusive (pool (run 0%nat Test.env ops Setup.one_used_mock)).
Proof.
  split; [exact one_used_mock_exclusive|].
  exact (X12_exclusive_along_calls 0%nat Test.env
           [OpRelease 2%nat; OpAcquire (); OpAcquire ()] Setup.one_used_mock
           one_used_mock_exclusive).
Defined.

(** The second and third scenario of the specification, with the mock
    mutex: release resource 2, get it back. *)
Lemma X14_release_then_acquire_witness :
  let s := Setup.one_used_mock in
  lock (pool s) !! 2%nat = Some (100 * Test.second) ∧
  ¬ expired_at Test.env s (100 * Test.second) ∧
  unlock (pool s) = ∅ ∧
  0 < maxIdleSize (pool s) ∧
  min_int64 < maxIdleTime (pool s) ≤ max_int64 ∧
  Z.of_N (elapse Test.env (S (S (reads (world s))))) ≤ maxIdleTime (pool s) ∧
  ∃ s1 s2,
    Release Test.env 2%nat s = Returned () s1 ∧
    unlock (pool s1) = {[2%nat := now (world s1)]} ∧
    Acquire 0%nat Test.env () s1 = Returned (2%nat, None) s2 ∧
    calls (world s2) = calls (world s) ∧
    unlock (pool s2) = ∅ ∧
    lock (pool s2) = <[2%nat := now (world s2)]> (lock (pool s)).
Proof.
  assert (¬ expired_at Test.env Setup.one_used_mock (100 * Test.second)) as Hfresh
    by (vm_compute; discriminate).
  assert (min_int64 < maxIdleTime (pool Setup.one_used_mock) ≤ max_int64) as Hd
    by (vm_compute; split; [reflexivity | discriminate]).
  assert (Z.of_N (elapse Test.env (S (S (reads (world Setup.one_used_mock)))))
          ≤ maxIdleTime (pool Setup.one_used_mock)) as Hsoon
    by (vm_compute; discriminate).
  split_and!; [reflexivity | exact Hfresh | reflexivity | reflexivity
              | apply Hd | apply Hd | exact Hsoon |].
  exact (X14_release_then_acquire 0%nat Test.env () 2%nat (100 * Test.second)
           Setup.one_used_mock eq_refl Hfresh eq_refl eq_refl Hd Hsoon).
Defined.

(** The same release on a pool with a [sync.Mutex]. *)
Lemma X16_release_deadlocks_witness :
  let s := Setup.one_used_sync in
  lock (pool s) !! 2%nat = Some (100 * Test.second) ∧
  ¬ expired_at Test.env s (100 * Test.second) ∧
  mutex (pool s) = false ∧
  unlock (pool s) !! 2%nat = None ∧
  ∃ s', Release Test.env 2%nat s = Blocked s' ∧
        trace (world s') = trace (world s) ++ [EvLock; EvLock] ∧
        mutex (pool s') = true ∧
        lock (pool s') !! 2%nat = None ∧
        unlock (pool s') !! 2%nat = None.
Proof.
  assert (¬ expired_at Test.env Setup.one_used_sync (100 * Test.second)) as Hfresh
    by (vm_compute; discriminate).
  split_and!; [reflexivity | exact Hfresh | reflexivity | reflexivity |].
  exact (X16_release_deadlocks Test.env 2%nat (100 * Test.second)
           Setup.one_used_sync eq_refl Hfresh eq_refl eq_refl).
Defined.

(** Three calls on a pool whose mutex is held. *)
Lemma X17_frozen_when_held_witness :
  let ops := [OpAcquire (); OpNumIdle; OpRelease 1%nat] in
  mutex (pool Setup.held) = true ∧
  pool (run 0%nat Test.env ops Setup.held) = pool Setup.held ∧
  now (world (run 0%nat Test.env ops Setup.held)) = now (world Setup.held) ∧
  calls (world (run 0%nat Test.env ops Setup.held)) = calls (world Setup.held) ∧
  trace (world (run 0%nat Test.env ops Setup.held)) = [EvLock; EvLock; EvLock].
Proof.
  split; [reflexivity|].
  exact (X17_frozen_when_held 0%nat Test.env
           [OpAcquire (); OpNumIdle; OpRelease 1%nat] Setup.held eq_refl).
Defined.

(** The threshold with [math.MinInt64] and with five seconds. *)
Lemma X19_getValidTimestamp_witness :
  (min_int64 ≤ maxIdleTime (pool Setup.never_idle) ≤ max_int64) ∧
  (min_int64 ≤ maxIdleTime (pool Scenario.one_used) ≤ max_int64) ∧
  (∃ s', getValidTimestamp Test.env Setup.never_idle =
           Returned (100 * Test.second + 1000000 - 2 ^ 63) s') ∧
  (∃ s', getValidTimestamp Test.env Scenario.one_used =
           Returned (95 * Test.second + 1000000) s').
Proof.
  assert (min_int64 ≤ maxIdleTime (pool Setup.never_idle) ≤ max_int64) as Hmin
    by (vm_compute; split; discriminate).
  assert (min_int64 ≤ maxIdleTime (pool Scenario.one_used) ≤ max_int64) as Hfive
    by (vm_compute; split; discriminate).
  split_and!; [apply Hmin | apply Hmin | apply Hfive | apply Hfive | |].
  - destruct (X19_getValidTimestamp Test.env Setup.never_idle Hmin) as (s' & Heq & _).
    exists s'. exact Heq.
  - destruct (X19_getValidTimestamp Test.env Scenario.one_used Hfive) as (s' & Heq & _).
    exists s'. exact Heq.
Defined.

(** Resource 1, checked out at the current clock reading, is dropped. *)
Lemma X20_negative_idle_time_witness :
  let s := Setup.negative_idle_time in
  lock (pool s) !! 1%nat = Some (100 * Test.second) ∧
  100 * Test.second ≤ now (world s) ∧
  min_int64 < maxIdleTime (pool s) < 0 ∧
  lock_free (mutex (pool s)) ∧
  ∃ s', Release Test.env 1%nat s = Returned () s' ∧
        lock (pool s') = delete 1%nat (lock (pool s)) ∧
        unlock (pool s') = unlock (pool s) ∧
        trace (world s') =
          trace (world s) ++ [EvLock; EvPrintln msg_expired; EvUnlock].
Proof.
  assert (100 * Test.second ≤ now (world Setup.negative_idle_time)) as Hts
    by (vm_compute; discriminate).
  assert (min_int64 < maxIdleTime (pool Setup.negative_idle_time) < 0) as Hd
    by (vm_compute; split; reflexivity).
  assert (lock_free (mutex (pool Setup.negative_idle_time))) as Hfree
    by (exists true, false; split; reflexivity).
  split_and!; [reflexivity | exact Hts | apply Hd | apply Hd | exact Hfree |].
  exact (X20_negative_idle_time Test.env 1%nat (100 * Test.second)
           Setup.negative_idle_time eq_refl Hts Hd Hfree).
Defined.
